(** * Competitor Pricing Tracker: the scraper service

    A shallow embedding of the scraper's utilities ([parsePrice],
    [extractImageUrl], [retry]) and of the [Scraper] class ([initialize],
    [close], [scrape], [scrapeWithRetry], [scrapeBatch]), with the
    properties of the specification stated and proved over it.

    JavaScript strings are sequences of UTF-16 code units; they are
    modelled as lists of code units ([N]).  Every character the code
    inspects (currency symbols, ASCII letters and digits, white space)
    is a single code unit. *)

From Stdlib Require Import List NArith ZArith QArith Bool String Ascii Lia.
Import ListNotations.

Local Open Scope N_scope.

(** ** Strings *)

Module JsString.

Definition jsstring := list N.

(** An ASCII literal as a sequence of code units. *)
Fixpoint lit (s : string) : jsstring :=
  match s with
  | EmptyString => []
  | String a s' => N_of_ascii a :: lit s'
  end.

Fixpoint eqb (a b : jsstring) : bool :=
  match a, b with
  | [], [] => true
  | x :: a', y :: b' => (x =? y) && eqb a' b'
  | _, _ => false
  end.

Definition inRange (lo hi c : N) : bool := (lo <=? c) && (c <=? hi).

(** [\d] *)
Definition isDigit (c : N) : bool := inRange 48 57 c.

Definition isUpper (c : N) : bool := inRange 65 90 c.
Definition isLower (c : N) : bool := inRange 97 122 c.
Definition isLetter (c : N) : bool := isUpper c || isLower c.

(** The word characters of [\b] and [\w] (no [u] flag): [A-Za-z0-9_]. *)
Definition isWordChar (c : N) : bool :=
  isDigit c || isUpper c || isLower c || (c =? 95).

(** ECMAScript WhiteSpace and LineTerminator code points, as removed by
    [String.prototype.trim]. *)
Definition isWhiteSpace (c : N) : bool :=
  inRange 9 13 c || (c =? 32) || (c =? 160) || (c =? 5760)
  || inRange 8192 8202 c || (c =? 8232) || (c =? 8233) || (c =? 8239)
  || (c =? 8287) || (c =? 12288) || (c =? 65279).

Fixpoint dropWhile (f : N -> bool) (s : jsstring) : jsstring :=
  match s with
  | [] => []
  | c :: s' => if f c then dropWhile f s' else s
  end.

Definition trimStart (s : jsstring) : jsstring := dropWhile isWhiteSpace s.
Definition trimEnd (s : jsstring) : jsstring :=
  rev (dropWhile isWhiteSpace (rev s)).
Definition trim (s : jsstring) : jsstring := trimEnd (trimStart s).

Fixpoint startsWith (p s : jsstring) : bool :=
  match p, s with
  | [], _ => true
  | a :: p', b :: s' => (a =? b) && startsWith p' s'
  | _ :: _, [] => false
  end.

(** [s.includes(p)] *)
Fixpoint includes (s p : jsstring) : bool :=
  startsWith p s ||
  match s with
  | [] => false
  | _ :: s' => includes s' p
  end.

(** [s.replace(p, '')] for a string pattern [p]: the first occurrence
    is removed. *)
Fixpoint removeFirst (s p : jsstring) : jsstring :=
  if startsWith p s then skipn (List.length p) s
  else match s with
       | [] => []
       | c :: s' => c :: removeFirst s' p
       end.

(** [s.replace(/[...]/g, '')] for a character class: every code unit
    of the class is removed. *)
Definition removeAll (cls : N -> bool) (s : jsstring) : jsstring :=
  filter (fun c => negb (cls c)) s.

(** [toUpperCase] on the ASCII letters; the strings it is applied to
    here are matches of an ASCII-letter pattern. *)
Definition toUpperUnit (c : N) : N := if isLower c then c - 32 else c.
Definition toUpperCase (s : jsstring) : jsstring := map toUpperUnit s.

(** [s.split(sep)] for a one-unit separator. *)
Fixpoint split (sep : N) (s : jsstring) : list jsstring :=
  match s with
  | [] => [[]]
  | c :: s' =>
      if c =? sep then [] :: split sep s'
      else match split sep s' with
           | [] => [[c]]
           | w :: ws => (c :: w) :: ws
           end
  end.

End JsString.
Import JsString.

(** ** Numbers

    [parseFloat] returns the Number nearest to the mathematical value of
    the decimal literal it recognises.  The model keeps that mathematical
    value exactly, as sign, decimal mantissa and power of ten: the Number
    is a function of it, and [isNaN] only asks whether a literal was
    recognised at all. *)

Inductive number : Type :=
| NaN
| Infinity (neg : bool)
| Decimal (neg : bool) (mantissa : N) (exp10 : Z).

Definition isNaN (x : number) : bool :=
  match x with NaN => true | _ => false end.


Module ParseFloat.

Fixpoint span (f : N -> bool) (s : jsstring) : jsstring * jsstring :=
  match s with
  | [] => ([], [])
  | c :: s' =>
      if f c then let (a, b) := span f s' in (c :: a, b) else ([], s)
  end.

Definition digitValue (c : N) : N := c - 48.

(** The value of a digit sequence, most significant digit first. *)
Definition digitsValue (ds : jsstring) : N :=
  fold_left (fun acc c => 10 * acc + digitValue c) ds 0.

Definition isNil (s : jsstring) : bool :=
  match s with [] => true | _ => false end.

Definition isExponentIndicator (c : N) : bool := (c =? 101) || (c =? 69).

(** An optional sign at the head of [s]: whether it is a minus, and the
    rest. *)
Definition signOf (s : jsstring) : bool * jsstring :=
  match s with
  | c :: r =>
      if c =? 45 then (true, r)
      else if c =? 43 then (false, r)
      else (false, s)
  | [] => (false, s)
  end.

(** ExponentPart, when one is present at the head of [s]; otherwise
    the exponent is zero and nothing is consumed. *)
Definition exponent (s : jsstring) : Z :=
  match s with
  | c :: r =>
      if isExponentIndicator c then
        let (neg, r') := signOf r in
        let ds := fst (span isDigit r') in
        if isNil ds then 0%Z
        else if neg then Z.opp (Z.of_N (digitsValue ds))
             else Z.of_N (digitsValue ds)
      else 0%Z
  | [] => 0%Z
  end.

Definition mkDecimal (neg : bool) (ip fp : jsstring) (e : Z) : number :=
  Decimal neg (digitsValue (ip ++ fp)) (e - Z.of_nat (List.length fp)).

(** StrUnsignedDecimalLiteral at the head of [s]. *)
Definition unsignedLiteral (neg : bool) (s : jsstring) : number :=
  if startsWith (lit "Infinity") s then Infinity neg
  else
    let (ip, r1) := span isDigit s in
    let integerOnly :=
      if isNil ip then NaN else mkDecimal neg ip [] (exponent r1) in
    match r1 with
    | c :: r2 =>
        if c =? 46 then
          let (fp, r3) := span isDigit r2 in
          if isNil ip && isNil fp then NaN
          else mkDecimal neg ip fp (exponent r3)
        else integerOnly
    | [] => integerOnly
    end.

(** The global [parseFloat]: leading white space is skipped and the
    longest prefix that is a StrDecimalLiteral is converted; [NaN] when
    there is none. *)
Definition parseFloat (s : jsstring) : number :=
  let (neg, u) := signOf (trimStart s) in unsignedLiteral neg u.



(** The grammar [parseFloat] refers to (ECMAScript, StringNumericLiteral),
    each literal with the number it denotes.  The unsigned literal
    denotes a number for either sign. *)

Definition DecimalDigits (ds : jsstring) : Prop :=
  ds <> [] /\ forallb isDigit ds = true.






End ParseFloat.
Import ParseFloat.

(** ** Exceptions and effects

    An [async] function is modelled as a state transformer that returns
    either the value it resolves to or the value it rejects with; the
    state it has reached is kept in both cases, as the effects of a
    JavaScript function are when it throws. *)

Module Js.

(** The values a JavaScript [throw] can carry here: an [Error] with its
    message, or [undefined]. *)
Inductive exn : Type :=
| JsError (message : jsstring)
| JsUndefined.

Definition result (A : Type) : Type := (exn + A)%type.

(** [error instanceof Error ? error.message : String(error)] *)
Definition errorMessage (error : exn) : jsstring :=
  match error with
  | JsError message => message
  | JsUndefined => lit "undefined"
  end.

(** Truthiness of a [string | null | undefined] value. *)
Definition truthy (v : option jsstring) : bool :=
  match v with
  | Some (_ :: _) => true
  | _ => false
  end.

Section Monad.
Context {St : Type}.

Definition M (A : Type) : Type := St -> result A * St.

Definition ret {A} (a : A) : M A := fun s => (inr a, s).

Definition bind {A B} (m : M A) (k : A -> M B) : M B :=
  fun s =>
    match m s with
    | (inr a, s') => k a s'
    | (inl e, s') => (inl e, s')
    end.

Definition throw {A} (e : exn) : M A := fun s => (inl e, s).

(** [try { m } catch (error) { h error }] *)
Definition tryCatch {A} (m : M A) (h : exn -> M A) : M A :=
  fun s =>
    match m s with
    | (inl e, s') => h e s'
    | (inr a, s') => (inr a, s')
    end.

Definition gets {A} (f : St -> A) : M A := fun s => (inr (f s), s).
Definition modify (f : St -> St) : M unit := fun s => (inr tt, f s).

(** A synchronous function that returns or throws. *)
Definition liftResult {A} (r : result A) : M A := fun s => (r, s).
End Monad.

End Js.
Import Js.

Declare Scope js_scope.
Delimit Scope js_scope with js.
Notation "x <- m ;; k" := (bind m (fun x => k))
  (at level 61, m at next level, right associativity) : js_scope.
Notation "m ;;; k" := (bind m (fun _ => k))
  (at level 61, right associativity) : js_scope.

(** ** utils: parsePrice *)

Module Utils.

Definition DOLLAR : N := 36.     (* $ *)
Definition EURO   : N := 8364.   (* U+20AC *)
Definition POUND  : N := 163.    (* U+00A3 *)
Definition YEN    : N := 165.    (* U+00A5 *)
Definition RUPEE  : N := 8377.   (* U+20B9 *)
Definition RUBLE  : N := 8381.   (* U+20BD *)
Definition WON    : N := 8361.   (* U+20A9 *)

Record currencyPattern := { symbol : jsstring; code : jsstring }.

Definition currencyPatterns : list currencyPattern :=
  [ {| symbol := [DOLLAR]; code := lit "USD" |};
    {| symbol := [EURO];   code := lit "EUR" |};
    {| symbol := [POUND];  code := lit "GBP" |};
    {| symbol := [YEN];    code := lit "JPY" |};
    {| symbol := [RUPEE];  code := lit "INR" |};
    {| symbol := [RUBLE];  code := lit "RUB" |};
    {| symbol := [WON];    code := lit "KRW" |} ].

(** The alternatives of [codePattern]. *)
Definition codeAlternatives : list jsstring :=
  map lit ["USD"; "EUR"; "GBP"; "JPY"; "INR"; "RUB"; "KRW"; "CAD"; "AUD"; "CHF"]%string.

(** The [for ... of currencyPatterns] loop: the first table entry whose
    symbol occurs in [cleaned] sets the currency and the price string,
    and ends the loop. *)
Fixpoint symbolScan (table : list currencyPattern) (cleaned : jsstring)
    (currency priceString : jsstring) : jsstring * jsstring :=
  match table with
  | [] => (currency, priceString)
  | p :: table' =>
      if includes cleaned (symbol p)
      then (code p, trim (removeFirst cleaned (symbol p)))
      else symbolScan table' cleaned currency priceString
  end.

(** [\b]: the positions where exactly one neighbour is a word
    character; the ends of the string count as non-word. *)
Definition isWord (c : option N) : bool :=
  match c with Some x => isWordChar x | None => false end.
Definition wordBoundary (before after : option N) : bool :=
  xorb (isWord before) (isWord after).

(** Case-insensitive comparison of a code unit with a pattern letter
    (flag [i], no flag [u]): both sides are canonicalised by upper-casing,
    and a code unit outside ASCII never canonicalises into ASCII. *)
Definition canonicalize (c : N) : N := toUpperUnit c.

(** An attempt to match [/\b(USD|...|CHF)\b/i] at one position: [prev]
    is the code unit before it, [s] the rest of the subject.  The result
    is the captured group. *)
Definition matchCodeAt (prev : option N) (s : jsstring) : option jsstring :=
  match s with
  | a :: b :: c :: rest =>
      if wordBoundary prev (Some a)
         && existsb (JsString.eqb (map canonicalize [a; b; c])) codeAlternatives
         && wordBoundary (Some c) (hd_error rest)
      then Some [a; b; c]
      else None
  | _ => None
  end.

(** The leftmost match of [codePattern] in a subject: the text before
    the match, the match, the text after it. *)
Record regexMatch := { before : jsstring; group1 : jsstring; after : jsstring }.

Fixpoint execFrom (prev : option N) (s : jsstring) : option regexMatch :=
  match matchCodeAt prev s with
  | Some tok => Some {| before := []; group1 := tok; after := skipn 3 s |}
  | None =>
      match s with
      | [] => None
      | c :: s' =>
          match execFrom (Some c) s' with
          | Some m => Some {| before := c :: before m; group1 := group1 m; after := after m |}
          | None => None
          end
      end
  end.

(** [cleaned.match(codePattern)] *)
Definition matchCode (s : jsstring) : option regexMatch := execFrom None s.

(** [cleaned.replace(codePattern, '')] *)
Definition removeCode (s : jsstring) : jsstring :=
  match matchCode s with
  | Some m => before m ++ after m
  | None => s
  end.

Definition isComma (c : N) : bool := c =? 44.

(** The class [[^\d.-]]: everything but digits, the point and the minus. *)
Definition notNumeric (c : N) : bool :=
  negb (isDigit c || (c =? 46) || (c =? 45)).

(** The characters that are kept. *)
Definition isNumeric (c : N) : bool := negb (notNumeric c).

Record parsed := { price : number; currency : jsstring }.

(** Currency detection: the symbol loop, then the code pattern, which
    (when it matches) replaces both the currency and the price string. *)
Definition detect (cleaned : jsstring) : jsstring * jsstring :=
  let (currency, priceString) :=
    symbolScan currencyPatterns cleaned (lit "USD") cleaned in
  match matchCode cleaned with
  | Some m => (toUpperCase (group1 m), trim (removeCode cleaned))
  | None => (currency, priceString)
  end.

Definition parsePrice (priceText : jsstring) : result parsed :=
  if ParseFloat.isNil priceText then inl (JsError (lit "Price text is empty"))
  else
    let cleaned := trim priceText in
    let (currency, priceString) := detect cleaned in
    let priceString := removeAll notNumeric (removeAll isComma priceString) in
    let price := parseFloat priceString in
    if isNaN price
    then inl (JsError (lit "Could not parse price from: " ++ priceText))
    else inr {| price := price; currency := currency |}.

(** A DOM element as the extraction helpers use it. *)
Record Element := {
  textContent : option jsstring;
  getAttribute : jsstring -> option jsstring
}.

(** [element.textContent?.trim() || ''] *)
Definition extractText (element : option Element) : jsstring :=
  match element with
  | None => []
  | Some e =>
      match textContent e with
      | Some t => trim t
      | None => []
      end
  end.

Definition extractAttribute (element : option Element) (attribute : jsstring)
    : option jsstring :=
  match element with
  | None => None
  | Some e => getAttribute e attribute
  end.

Definition SPACE : N := 32.
Definition COMMA : N := 44.

(** [srcset.split(',').map(s => s.trim().split(' ')[0])] *)
Definition srcsetUrls (srcset : jsstring) : list jsstring :=
  map (fun s => hd [] (split SPACE (trim s))) (split COMMA srcset).

Definition extractImageUrl (element : option Element) : option jsstring :=
  match element with
  | None => None
  | Some _ =>
      let src := extractAttribute element (lit "src") in
      if truthy src then src
      else
        let dataSrc := extractAttribute element (lit "data-src") in
        if truthy dataSrc then dataSrc
        else
          let srcset := extractAttribute element (lit "srcset") in
          if truthy srcset then
            match srcset with
            | Some ss =>
                let urls := srcsetUrls ss in
                let first := hd_error urls in
                if truthy first then first else None
            | None => None
            end
          else None
  end.

Definition getUserAgent : jsstring :=
  lit "Mozilla/5.0 (Windows NT 10.0; Win64; x64) AppleWebKit/537.36 (KHTML, like Gecko) Chrome/120.0.0.0 Safari/537.36 CompetitorTracker/1.0".

(** [retry(fn, maxRetries = 3, baseDelay = 1000)].  [sleep] is the timer
    of the host; it never rejects.  [maxRetries] and [baseDelay] are
    integers here. *)
Section Retry.
Context {St T : Type}.
Variable sleep : Z -> St -> St.
Variable fn : M (St := St) T.
Variables maxRetries baseDelay : Z.

(** [throw lastError!], where [lastError] may never have been
    assigned. *)
Definition throwLast (lastError : option exn) : M (St := St) T :=
  throw (match lastError with Some e => e | None => JsUndefined end).

(** The [for] loop from the iteration [attempt] on; [fuel] bounds the
    number of iterations left. *)
Fixpoint retryLoop (fuel : nat) (attempt : Z) (lastError : option exn)
    : M (St := St) T :=
  match fuel with
  | O => throwLast lastError
  | S fuel' =>
      if (attempt <? maxRetries)%Z then
        fun s =>
          match fn s with
          | (inr v, s') => (inr v, s')
          | (inl error, s') =>
              let s'' :=
                if (attempt <? maxRetries - 1)%Z
                then sleep (baseDelay * 2 ^ attempt) s'
                else s' in
              retryLoop fuel' (attempt + 1) (Some error) s''
          end
      else throwLast lastError
  end.

Definition retry : M (St := St) T :=
  retryLoop (Z.to_nat maxRetries) 0 None.
End Retry.

Definition defaultMaxRetries : Z := 3.
Definition defaultBaseDelay : Z := 1000.

End Utils.
Import Utils.


(** ** types *)

Module Types.

Record ScraperOptions := {
  timeout : option Z;
  waitForSelector : option jsstring;
  headless : option bool;
  userAgent : option jsstring
}.

(** [{}], the default of every [options] parameter. *)
Definition noOptions : ScraperOptions :=
  {| timeout := None; waitForSelector := None;
     headless := None; userAgent := None |}.

(** [productName] and [imageUrl] are [None] when the field is
    [undefined] or [null]. *)
Record ScrapedData := {
  price : number;
  currency : jsstring;
  productName : option jsstring;
  imageUrl : option jsstring;
  rawPrice : jsstring
}.

End Types.

(** ** The browser automation runtime

    Playwright is outside the repository.  Its calls are the methods of
    an interface over an abstract world: each call returns (or rejects)
    and moves the world on.  Handles are opaque identifiers. *)

Module Playwright.

Definition Browser := N.
Definition BrowserContext := N.
Definition Page := N.
Definition ElementHandle := N.

Record LaunchOptions := { lo_headless : bool; lo_args : list jsstring }.
Record ContextOptions := { co_userAgent : jsstring; co_viewport : Z * Z }.
Record GotoOptions := { go_waitUntil : jsstring; go_timeout : Z }.

Class Driver (World : Type) := {
  launch : LaunchOptions -> World -> result Browser * World;
  newContext : Browser -> ContextOptions -> World -> result BrowserContext * World;
  newPage : BrowserContext -> World -> result Page * World;
  closePage : Page -> World -> result unit * World;
  closeContext : BrowserContext -> World -> result unit * World;
  closeBrowser : Browser -> World -> result unit * World;
  goto : Page -> jsstring -> GotoOptions -> World -> result unit * World;
  waitFor : Page -> jsstring -> Z -> World -> result unit * World;
  (** [page.$(selector)] *)
  query : Page -> jsstring -> World -> result (option ElementHandle) * World;
  elementText : ElementHandle -> World -> result (option jsstring) * World;
  elementAttribute : ElementHandle -> jsstring -> World -> result (option jsstring) * World;
  (** the timer behind [sleep(ms)] *)
  elapse : Z -> World -> World
}.

End Playwright.
Import Playwright.

(** ** scraper: the Scraper class *)

Module Scraper.

Section WithDriver.
Context {World : Type} {driver : Driver World}.

(** The fields of a [Scraper] object, together with the world it
    acts on. *)
Record state := {
  browser : option Browser;
  context : option BrowserContext;
  page : option Page;
  world : World
}.

Definition setBrowser (b : option Browser) (s : state) : state :=
  {| browser := b; context := context s; page := page s; world := world s |}.
Definition setContext (c : option BrowserContext) (s : state) : state :=
  {| browser := browser s; context := c; page := page s; world := world s |}.
Definition setPage (p : option Page) (s : state) : state :=
  {| browser := browser s; context := context s; page := p; world := world s |}.
Definition setWorld (w : World) (s : state) : state :=
  {| browser := browser s; context := context s; page := page s; world := w |}.

(** [new Scraper()] *)
Definition fresh (w : World) : state :=
  {| browser := None; context := None; page := None; world := w |}.

(** [await] of a runtime call. *)
Definition call {A} (f : World -> result A * World) : M (St := state) A :=
  fun s => let (r, w) := f (world s) in (r, setWorld w s).

Definition sleep (ms : Z) (s : state) : state :=
  setWorld (elapse ms (world s)) s.

Local Open Scope js_scope.

Definition launchArgs : list jsstring :=
  map lit [ "--no-sandbox"; "--disable-setuid-sandbox";
            "--disable-dev-shm-usage"; "--disable-accelerated-2d-canvas";
            "--no-first-run"; "--no-zygote"; "--disable-gpu" ]%string.

Definition initialize (options : Types.ScraperOptions) : M (St := state) unit :=
  b <- gets browser ;;
  match b with
  | Some _ => ret tt
  | None =>
      let launchOptions :=
        {| lo_headless :=
             match Types.headless options with Some false => false | _ => true end;
           lo_args := launchArgs |} in
      b <- call (launch launchOptions) ;;
      modify (setBrowser (Some b)) ;;;
      c <- call (newContext b
             {| co_userAgent :=
                  match Types.userAgent options with
                  | Some (u :: ua) => u :: ua
                  | _ => getUserAgent
                  end;
                co_viewport := (1920, 1080)%Z |}) ;;
      modify (setContext (Some c)) ;;;
      p <- call (newPage c) ;;
      modify (setPage (Some p))
  end.

Definition close : M (St := state) unit :=
  p <- gets page ;;
  match p with
  | Some p => call (closePage p) ;;; modify (setPage None)
  | None => ret tt
  end ;;;
  c <- gets context ;;
  match c with
  | Some c => call (closeContext c) ;;; modify (setContext None)
  | None => ret tt
  end ;;;
  b <- gets browser ;;
  match b with
  | Some b => call (closeBrowser b) ;;; modify (setBrowser None)
  | None => ret tt
  end.

(** The price step of [scrape]: the element, its text, the parse. *)
Definition extractPrice (p : Page) (priceSelector : jsstring)
    : M (St := state) (jsstring * parsed) :=
  priceElement <- call (query p priceSelector) ;;
  match priceElement with
  | None =>
      throw (JsError (lit "Price element not found with selector: " ++ priceSelector))
  | Some priceElement =>
      priceText <- call (elementText priceElement) ;;
      match priceText with
      | Some (c :: t) =>
          r <- liftResult (parsePrice (c :: t)) ;;
          ret (c :: t, r)
      | _ => throw (JsError (lit "Price element has no text content"))
      end
  end.

(** The product name step. *)
Definition extractName (p : Page) (nameSelector : option jsstring)
    : M (St := state) (option jsstring) :=
  if truthy nameSelector then
    match nameSelector with
    | Some sel =>
        nameElement <- call (query p sel) ;;
        match nameElement with
        | Some nameElement =>
            productName <- call (elementText nameElement) ;;
            ret (option_map trim productName)
        | None => ret None
        end
    | None => ret None
    end
  else ret None.

(** The image step: [src], then [data-src]. *)
Definition extractImage (p : Page) (imageSelector : option jsstring)
    : M (St := state) (option jsstring) :=
  if truthy imageSelector then
    match imageSelector with
    | Some sel =>
        imageElement <- call (query p sel) ;;
        match imageElement with
        | Some imageElement =>
            imageUrl <- call (elementAttribute imageElement (lit "src")) ;;
            if truthy imageUrl then ret imageUrl
            else call (elementAttribute imageElement (lit "data-src"))
        | None => ret None
        end
    | None => ret None
    end
  else ret None.

(** Navigation, the optional wait for a selector, and the fixed
    delay. *)
Definition settle (p : Page) (url : jsstring) (options : Types.ScraperOptions)
    : M (St := state) unit :=
  let timeout :=
    match Types.timeout options with
    | Some t => if (t =? 0)%Z then 30000%Z else t
    | None => 30000%Z
    end in
  call (goto p url {| go_waitUntil := lit "networkidle"; go_timeout := timeout |}) ;;;
  (if truthy (Types.waitForSelector options)
   then match Types.waitForSelector options with
        | Some sel => call (waitFor p sel 5000%Z)
        | None => ret tt
        end
   else ret tt) ;;;
  modify (sleep 1000%Z).

Definition scrape (url priceSelector : jsstring)
    (nameSelector imageSelector : option jsstring)
    (options : Types.ScraperOptions) : M (St := state) Types.ScrapedData :=
  initialize options ;;;
  pg <- gets page ;;
  match pg with
  | None => throw (JsError (lit "Page not initialized"))
  | Some p =>
      tryCatch
        (settle p url options ;;;
         pr <- extractPrice p priceSelector ;;
         productName <- extractName p nameSelector ;;
         imageUrl <- extractImage p imageSelector ;;
         ret {| Types.price := Utils.price (snd pr);
                Types.currency := Utils.currency (snd pr);
                Types.productName := productName;
                Types.imageUrl := imageUrl;
                Types.rawPrice := trim (fst pr) |})
        (fun error =>
           throw (JsError (lit "Failed to scrape " ++ url ++ lit ": "
                           ++ errorMessage error)))
  end.

Definition scrapeWithRetry (url priceSelector : jsstring)
    (nameSelector imageSelector : option jsstring)
    (options : Types.ScraperOptions) (maxRetries : Z)
    : M (St := state) Types.ScrapedData :=
  retry sleep (scrape url priceSelector nameSelector imageSelector options)
        maxRetries 1000%Z.

Record request := {
  url : jsstring;
  priceSelector : jsstring;
  nameSelector : option jsstring;
  imageSelector : option jsstring
}.

(** An entry of the array [scrapeBatch] resolves to; [data] and
    [error] are [None] when the field is absent. *)
Record batchResult := {
  success : bool;
  data : option Types.ScrapedData;
  error : option jsstring;
  resultUrl : jsstring
}.

(** One iteration of the [for ... of requests] loop: the entry pushed
    on [results]. *)
Definition scrapeEntry (r : request) (options : Types.ScraperOptions)
    (maxRetries : Z) : M (St := state) batchResult :=
  tryCatch
    (d <- scrapeWithRetry (url r) (priceSelector r) (nameSelector r)
                          (imageSelector r) options maxRetries ;;
     ret {| success := true; data := Some d; error := None;
            resultUrl := url r |})
    (fun e =>
       ret {| success := false; data := None;
              error := Some (errorMessage e); resultUrl := url r |}).

Fixpoint batchLoop (requests : list request) (options : Types.ScraperOptions)
    (maxRetries : Z) (results : list batchResult)
    : M (St := state) (list batchResult) :=
  match requests with
  | [] => ret results
  | r :: requests' =>
      e <- scrapeEntry r options maxRetries ;;
      batchLoop requests' options maxRetries (results ++ [e])
  end.

Definition scrapeBatch (requests : list request)
    (options : Types.ScraperOptions) (maxRetries : Z)
    : M (St := state) (list batchResult) :=
  batchLoop requests options maxRetries [].

End WithDriver.

Arguments state World : clear implicits.

End Scraper.

(** ** A scripted runtime

    A small implementation of the runtime interface, used to run the
    scraper on concrete pages: a web of static sites, a log of the calls
    made, and a list of calls that are set to reject. *)

Module Fake.

Record node := {
  selector : jsstring;
  text : option jsstring;
  attributes : list (jsstring * jsstring)
}.

Record site := { address : jsstring; nodes : list node }.

Inductive event : Type :=
| Launch
| NewContext
| NewPage
| ClosePage
| CloseContext
| CloseBrowser
| Goto (url : jsstring)
| Sleep (ms : Z).

Definition sameKind (a b : event) : bool :=
  match a, b with
  | Launch, Launch | NewContext, NewContext | NewPage, NewPage
  | ClosePage, ClosePage | CloseContext, CloseContext
  | CloseBrowser, CloseBrowser => true
  | Goto u, Goto v => JsString.eqb u v
  | Sleep m, Sleep n => (m =? n)%Z
  | _, _ => false
  end.

Record world := {
  web : list site;
  location : option site;
  faults : list event;
  log : list event
}.

Definition record (e : event) (w : world) : world :=
  {| web := web w; location := location w; faults := faults w;
     log := log w ++ [e] |}.

(** A call that is logged, and rejects when it is listed in [faults]. *)
Definition attempt {A} (e : event) (a : A) (w : world) : result A * world :=
  if existsb (sameKind e) (faults w)
  then (inl (JsError (lit "Target closed")), record e w)
  else (inr a, record e w).

Definition navigate (u : jsstring) (w : world) : result unit * world :=
  match find (fun s => JsString.eqb (address s) u) (web w) with
  | Some s =>
      (inr tt, {| web := web w; location := Some s; faults := faults w;
                  log := log w ++ [Goto u] |})
  | None => (inl (JsError (lit "net::ERR_NAME_NOT_RESOLVED")), record (Goto u) w)
  end.

Fixpoint indexOf (sel : jsstring) (ns : list node) (i : N) : option N :=
  match ns with
  | [] => None
  | n :: ns' =>
      if JsString.eqb (selector n) sel then Some i
      else indexOf sel ns' (i + 1)
  end.

Definition currentNodes (w : world) : list node :=
  match location w with Some s => nodes s | None => [] end.

Definition lookupAttribute (name : jsstring) (n : node) : option jsstring :=
  match find (fun kv => JsString.eqb (fst kv) name) (attributes n) with
  | Some kv => Some (snd kv)
  | None => None
  end.

Definition onNode {A} (h : N) (f : node -> option A) (w : world)
    : result (option A) * world :=
  match nth_error (currentNodes w) (N.to_nat h) with
  | Some n => (inr (f n), w)
  | None => (inl (JsError (lit "Element is not attached to the DOM")), w)
  end.

#[global] Instance driver : Driver world := {|
  launch := fun _ => attempt Launch 1;
  newContext := fun _ _ => attempt NewContext 2;
  newPage := fun _ => attempt NewPage 3;
  closePage := fun _ => attempt ClosePage tt;
  closeContext := fun _ => attempt CloseContext tt;
  closeBrowser := fun _ => attempt CloseBrowser tt;
  goto := fun _ u _ => navigate u;
  waitFor := fun _ sel _ w =>
    match indexOf sel (currentNodes w) 0 with
    | Some _ => (inr tt, w)
    | None => (inl (JsError (lit "Timeout 5000ms exceeded")), w)
    end;
  query := fun _ sel w => (inr (indexOf sel (currentNodes w) 0), w);
  elementText := fun h => onNode h text;
  elementAttribute := fun h name => onNode h (lookupAttribute name);
  elapse := fun ms => record (Sleep ms)
|}.

Definition online (sites : list site) : world :=
  {| web := sites; location := None; faults := []; log := [] |}.

Definition withFaults (fs : list event) (w : world) : world :=
  {| web := web w; location := location w; faults := fs; log := log w |}.

End Fake.

(** ** Pages for the concrete runs *)

Module Shops.
Import Fake.

Definition priceSel : jsstring := lit ".price".
Definition imageSel : jsstring := lit "img".

Definition urlA : jsstring := lit "https://a.example/item".
Definition urlB : jsstring := lit "https://b.example/item".
Definition urlC : jsstring := lit "https://c.example/item".
Definition urlBlank : jsstring := lit "https://blank.example/item".
Definition urlGallery : jsstring := lit "https://gallery.example/item".

(** No element matches the price selector. *)
Definition shopA : site := {| address := urlA; nodes := [] |}.

(** A price, and an image with both [src] and [data-src]. *)
Definition shopB : site :=
  {| address := urlB;
     nodes :=
       [ {| selector := priceSel; text := Some (lit " $10.50 "); attributes := [] |};
         {| selector := imageSel; text := None;
            attributes := [ (lit "data-src", lit "lazy.jpg");
                            (lit "src", lit "main.jpg") ] |} ] |}.

(** A price element without digits. *)
Definition shopC : site :=
  {| address := urlC;
     nodes := [ {| selector := priceSel; text := Some (lit "Free"); attributes := [] |} ] |}.

(** A price element whose text is white space only. *)
Definition shopBlank : site :=
  {| address := urlBlank;
     nodes := [ {| selector := priceSel; text := Some (lit "   "); attributes := [] |} ] |}.

(** A price, and an image that carries only [srcset]. *)
Definition responsive : node :=
  {| selector := imageSel; text := None;
     attributes := [ (lit "srcset", lit "a.jpg 1x, b.jpg 2x") ] |}.

Definition shopGallery : site :=
  {| address := urlGallery;
     nodes := [ {| selector := priceSel; text := Some (lit "$5"); attributes := [] |};
                responsive ] |}.

(** A node as the element the helpers of utils receive. *)
Definition asElement (n : node) : Element :=
  {| textContent := text n;
     getAttribute := fun name => lookupAttribute name n |}.

Definition theWeb : world :=
  online [shopA; shopB; shopC; shopBlank; shopGallery].

Definition start : Scraper.state world := Scraper.fresh theWeb.

Definition target (u : jsstring) : Scraper.request :=
  {| Scraper.url := u; Scraper.priceSelector := priceSel;
     Scraper.nameSelector := None; Scraper.imageSelector := Some imageSel |}.

End Shops.

(** ** Vocabulary of the statements *)

(** The captured group of a match, if any. *)
Definition matched (r : option regexMatch) : option jsstring :=
  option_map group1 r.

(** The string contains one of the known currency symbols. *)
Definition hasSymbol (s : jsstring) : Prop :=
  exists p, In p currencyPatterns /\ includes s (symbol p) = true.

(** The currency the symbol loop leaves, before the code pattern is
    tried. *)
Definition symbolCurrency (cleaned : jsstring) : jsstring :=
  fst (symbolScan currencyPatterns cleaned (lit "USD") cleaned).

(** The failure kinds of the specification, as the messages the code
    gives them. *)
Definition ElementNotFound (priceSelector : jsstring) : jsstring :=
  lit "Price element not found with selector: " ++ priceSelector.
Definition EmptyContent : jsstring := lit "Price element has no text content".
Definition ParseError (priceText : jsstring) : jsstring :=
  lit "Could not parse price from: " ++ priceText.
Definition ScrapeError (url cause : jsstring) : exn :=
  JsError (lit "Failed to scrape " ++ url ++ lit ": " ++ cause).

(** One level of the teardown, taken alone: the close call when the
    reference is set, nothing when it is empty. *)
Definition closeIf {World H : Type} (ref : option H)
    (closeCall : H -> World -> result unit * World) (w : World)
    : result unit * World :=
  match ref with
  | Some h => closeCall h w
  | None => (inr tt, w)
  end.

(** What a retry loop does that can be observed from outside. *)
Inductive retryEvent : Type :=
| Invoked (outcome : exn)
| Slept (ms : Z).

(** The observations of [n] failed attempts from the attempt [i] on,
    with the errors they raised: every attempt but the last is followed
    by its delay. *)
Fixpoint exhausted (baseDelay : Z) (i : Z) (errors : list exn) : list retryEvent :=
  match errors with
  | [] => []
  | [e] => [Invoked e]
  | e :: errors' =>
      Invoked e :: Slept (baseDelay * 2 ^ i) :: exhausted baseDelay (i + 1) errors'
  end.

(** A batch, one target after the other: each target adds the outcome of
    its own retried scrape, and the next one starts from the state that
    scrape has left. *)
Inductive BatchRun {World : Type} {driver : Driver World}
    (options : Types.ScraperOptions) (maxRetries : Z)
  : list Scraper.request -> Scraper.state World ->
    list Scraper.batchResult -> Scraper.state World -> Prop :=
| BatchRun_done st : BatchRun options maxRetries [] st [] st
| BatchRun_success r rs st d st1 os st2 :
    Scraper.scrapeWithRetry (Scraper.url r) (Scraper.priceSelector r)
      (Scraper.nameSelector r) (Scraper.imageSelector r) options maxRetries st
    = (inr d, st1) ->
    BatchRun options maxRetries rs st1 os st2 ->
    BatchRun options maxRetries (r :: rs) st
      ({| Scraper.success := true; Scraper.data := Some d;
          Scraper.error := None; Scraper.resultUrl := Scraper.url r |} :: os) st2
| BatchRun_failure r rs st e st1 os st2 :
    Scraper.scrapeWithRetry (Scraper.url r) (Scraper.priceSelector r)
      (Scraper.nameSelector r) (Scraper.imageSelector r) options maxRetries st
    = (inl e, st1) ->
    BatchRun options maxRetries rs st1 os st2 ->
    BatchRun options maxRetries (r :: rs) st
      ({| Scraper.success := false; Scraper.data := None;
          Scraper.error := Some (errorMessage e);
          Scraper.resultUrl := Scraper.url r |} :: os) st2.

(** ** An operation that always fails, for the concrete runs of retry

    The state is the list of observations so far; every invocation raises
    an error that carries the number of invocations made before it. *)

Module Flaky.

Definition countInvoked (l : list retryEvent) : N :=
  N.of_nat (List.length (filter (fun e => match e with Invoked _ => true | Slept _ => false end) l)).

Definition failure (l : list retryEvent) : exn :=
  JsError (lit "attempt " ++ [48 + countInvoked l]).

Definition fn : M (St := list retryEvent) unit :=
  fun l => (inl (failure l), l ++ [Invoked (failure l)]).

Definition sleep (ms : Z) (l : list retryEvent) : list retryEvent :=
  l ++ [Slept ms].

End Flaky.

(** ** utils: sanitizeSelector *)

Module Sanitize.

(** [s.replace(re, '')] for a global pattern that never matches the
    empty string: the string is scanned from the left; where the
    pattern matches, the match is dropped and the scan goes on after it.
    [matchAt] gives the length of the match at the head of a string, and
    [skip] counts the code units of a match still to drop. *)
Fixpoint removeMatches (matchAt : jsstring -> option nat) (skip : nat)
    (s : jsstring) : jsstring :=
  match s with
  | [] => []
  | c :: s' =>
      match skip with
      | S k => removeMatches matchAt k s'
      | O =>
          match matchAt s with
          | Some (S k) => removeMatches matchAt k s'
          | _ => c :: removeMatches matchAt O s'
          end
      end
  end.

(** [/on\w+\s*=/i] at the head of a string.  The three repeated classes
    are disjoint from what follows each of them, so the greedy match is
    the only one: [o], [n], the whole run of word characters (at least
    one), the whole run of white space, and [=]. *)
Definition matchHandlerAt (s : jsstring) : option nat :=
  match s with
  | o :: n :: r =>
      if (canonicalize o =? 79) && (canonicalize n =? 78) then
        let (ws, r1) := span isWordChar r in
        if ParseFloat.isNil ws then None
        else
          let (sp, r2) := span isWhiteSpace r1 in
          match r2 with
          | c :: _ =>
              if c =? 61 then Some (2 + List.length ws + List.length sp + 1)%nat
              else None
          | [] => None
          end
      else None
  | _ => None
  end.

(** A literal pattern under the flag [i]. *)
Fixpoint startsWithIgnoreCase (p s : jsstring) : bool :=
  match p, s with
  | [], _ => true
  | a :: p', b :: s' =>
      (canonicalize a =? canonicalize b) && startsWithIgnoreCase p' s'
  | _ :: _, [] => false
  end.

(** [/javascript:/i] at the head of a string. *)
Definition matchJavascriptAt (s : jsstring) : option nat :=
  if startsWithIgnoreCase (lit "javascript:") s then Some 11%nat else None.

Definition sanitizeSelector (selector : jsstring) : jsstring :=
  trim (removeMatches matchJavascriptAt 0
          (removeMatches matchHandlerAt 0 selector)).

End Sanitize.

(** ** utils: isValidUrl

    [urlPattern.test(url)] with a pattern anchored at both ends asks
    whether the whole string belongs to the language of the pattern.
    Patterns are terms, and membership is decided by derivatives. *)

Module Regex.

Inductive re : Type :=
| Void
| Eps
| Class (f : N -> bool)
| Cat (a b : re)
| Alt (a b : re)
| Star (a : re).

Definition Opt (a : re) : re := Alt a Eps.
Definition Plus (a : re) : re := Cat a (Star a).

(** The characters of a literal, one after the other. *)
Fixpoint Lit (s : jsstring) : re :=
  match s with
  | [] => Eps
  | c :: s' => Cat (Class (N.eqb c)) (Lit s')
  end.

(** [a{n}] *)
Fixpoint Times (n : nat) (a : re) : re :=
  match n with
  | O => Eps
  | S k => Cat a (Times k a)
  end.

(** [a{0,n}] *)
Fixpoint UpTo (n : nat) (a : re) : re :=
  match n with
  | O => Eps
  | S k => Opt (Cat a (UpTo k a))
  end.

(** [a{n,m}] with [n <= m]. *)
Definition Between (n m : nat) (a : re) : re :=
  Cat (Times n a) (UpTo (m - n) a).

Fixpoint nullable (r : re) : bool :=
  match r with
  | Void => false
  | Eps => true
  | Class _ => false
  | Cat a b => nullable a && nullable b
  | Alt a b => nullable a || nullable b
  | Star _ => true
  end.

Fixpoint deriv (c : N) (r : re) : re :=
  match r with
  | Void => Void
  | Eps => Void
  | Class f => if f c then Eps else Void
  | Cat a b =>
      if nullable a then Alt (Cat (deriv c a) b) (deriv c b)
      else Cat (deriv c a) b
  | Alt a b => Alt (deriv c a) (deriv c b)
  | Star a => Cat (deriv c a) (Star a)
  end.

(** [/^r$/.test(s)] *)
Definition test (r : re) (s : jsstring) : bool :=
  nullable (fold_left (fun r c => deriv c r) s r).

(** The language of a pattern. *)
Inductive Matches : re -> jsstring -> Prop :=
| M_Eps : Matches Eps []
| M_Class f c : f c = true -> Matches (Class f) [c]
| M_Cat a b s t : Matches a s -> Matches b t -> Matches (Cat a b) (s ++ t)
| M_Alt_l a b s : Matches a s -> Matches (Alt a b) s
| M_Alt_r a b s : Matches b s -> Matches (Alt a b) s
| M_Star_nil a : Matches (Star a) []
| M_Star_app a s t :
    Matches a s -> Matches (Star a) t -> Matches (Star a) (s ++ t).

(** Some class of the pattern holds the character. *)
Fixpoint accepts (r : re) (c : N) : bool :=
  match r with
  | Void | Eps => false
  | Class f => f c
  | Cat a b | Alt a b => accepts a c || accepts b c
  | Star a => accepts a c
  end.

End Regex.

Module Url.
Import Regex.

(** [[\da-z\.-]] *)
Definition hostChar (c : N) : bool :=
  isDigit c || isLower c || (c =? 46) || (c =? 45).

(** [[a-z\.]] *)
Definition tldChar (c : N) : bool := isLower c || (c =? 46).

(** [[\/\w \.-]] *)
Definition pathChar (c : N) : bool :=
  (c =? 47) || isWordChar c || (c =? 32) || (c =? 46) || (c =? 45).

(** [(https?:\/\/)?] *)
Definition scheme : re :=
  Opt (Cat (Lit (lit "http")) (Cat (Opt (Lit (lit "s"))) (Lit (lit "://")))).

(** After the scheme: one or more host characters, a point, two to six
    domain characters, the path group (a starred class) starred again,
    and an optional final slash. *)
Definition body : re :=
  Cat (Plus (Class hostChar))
    (Cat (Lit (lit "."))
       (Cat (Between 2 6 (Class tldChar))
          (Cat (Star (Star (Class pathChar)))
             (Opt (Lit (lit "/")))))).

(** The whole of [urlPattern]: the optional scheme, then the rest. *)
Definition urlPattern : re := Cat scheme body.

(** The [try] around the test never catches: [test] does not throw. *)
Definition isValidUrl (url : jsstring) : bool := test urlPattern url.

(** The characters of a URL after its scheme. *)
Definition bodyChar (c : N) : bool :=
  isWordChar c || (c =? 47) || (c =? 32) || (c =? 46) || (c =? 45).

End Url.

(** ** More vocabulary: delays *)

(** The delays [baseDelay * 2 ^ i], [baseDelay * 2 ^ (i + 1)], ...,
    [n] of them. *)
Fixpoint backoff (baseDelay : Z) (i : Z) (n : nat) : list Z :=
  match n with
  | O => []
  | S n' => (baseDelay * 2 ^ i)%Z :: backoff baseDelay (i + 1) n'
  end.

Definition total (delays : list Z) : Z := fold_right Z.add 0%Z delays.

(** The time slept in a sequence of observations. *)
Fixpoint sleptTotal (l : list retryEvent) : Z :=
  match l with
  | [] => 0%Z
  | Slept ms :: l' => (ms + sleptTotal l')%Z
  | Invoked _ :: l' => sleptTotal l'
  end.

(** ** An operation that fails twice and then succeeds

    The state counts the invocations and keeps the delays slept. *)

Module Recovering.

Definition state : Type := (nat * list Z)%type.

Definition fn : M (St := state) nat :=
  fun s =>
    let (n, l) := s in
    if (n <? 2)%nat then (inl (JsError (lit "not yet")), (S n, l))
    else (inr n, (S n, l)).

Definition sleep (ms : Z) (s : state) : state :=
  let (n, l) := s in (n, l ++ [ms]).

End Recovering.

(** ** More vocabulary: the session *)

(** The three references of a [Scraper]. *)
Definition fields {World : Type} (st : Scraper.state World)
    : option Browser * option BrowserContext * option Page :=
  (Scraper.browser st, Scraper.context st, Scraper.page st).

(** A page is held only with its context, and a context only with its
    engine. *)
Definition ordered {World : Type} (st : Scraper.state World) : Prop :=
  (Scraper.page st <> None -> Scraper.context st <> None)
  /\ (Scraper.context st <> None -> Scraper.browser st <> None).

(** A computation that leaves the three references as they are. *)
Definition keeps {World A : Type} (m : M (St := Scraper.state World) A) : Prop :=
  forall st, fields (snd (m st)) = fields st.

(** ** scraper: the singleton *)

Module Singleton.

Section WithDriver.
Context {World : Type} {driver : Driver World}.

(** The module variable [scraperInstance] with the world: either
    [null], or a [Scraper] with its fields. *)
Inductive process : Type :=
| NoInstance (w : World)
| Instance (st : Scraper.state World).


(** [getScraper()]: the variable is assigned before [initialize] is
    awaited, so it stays assigned when [initialize] rejects.  The
    instance resolved to is the one the process holds. *)
Definition getScraper : M (St := process) unit :=
  fun p =>
    match p with
    | NoInstance w =>
        let (r, st) := Scraper.initialize Types.noOptions (Scraper.fresh w) in
        (r, Instance st)
    | Instance st => (inr tt, Instance st)
    end.


(** A method called on the instance [getScraper] has resolved to.
    Calling a method on [null] is a [TypeError]. *)
Definition onInstance {A} (m : M (St := Scraper.state World) A)
    : M (St := process) A :=
  fun p =>
    match p with
    | Instance st => let (r, st') := m st in (r, Instance st')
    | NoInstance w =>
        (inl (JsError (lit "Cannot read properties of null")), NoInstance w)
    end.

End WithDriver.

Arguments process World : clear implicits.

End Singleton.

(** A session whose page cannot be opened. *)
Module Sessions.

Definition pageless : Scraper.state Fake.world :=
  Scraper.fresh (Fake.withFaults [Fake.NewPage] Shops.theWeb).

End Sessions.

(** ** index: the request handlers

    The handlers of [POST /scrape] and [POST /scrape/batch], from the
    point where the body has passed its schema. *)

Module Server.

Record ScrapeRequest := {
  url : jsstring;
  priceSelector : jsstring;
  nameSelector : option jsstring;
  imageSelector : option jsstring;
  currency : option jsstring;
  waitForSelector : option jsstring;
  timeout : option Z
}.

Record Competitor := { id : jsstring; request : ScrapeRequest }.

Record ScrapeResult := {
  price : number;
  resultCurrency : jsstring;
  productName : option jsstring;
  imageUrl : option jsstring;
  scrapedAt : jsstring;
  rawPrice : jsstring
}.

Record ScrapeBatchResult := {
  resultId : jsstring;
  success : bool;
  data : option ScrapeResult;
  error : option jsstring
}.

(** The answers of a handler once the body is valid: 200 with the
    body, or 500 with the message. *)
Inductive response (A : Type) : Type :=
| Ok200 (body : A)
| Error500 (message : jsstring).
Arguments Ok200 {A} body.
Arguments Error500 {A} message.

(** [value || 30000] *)
Definition orDefaultTimeout (t : option Z) : Z :=
  match t with
  | Some v => if (v =? 0)%Z then 30000%Z else v
  | None => 30000%Z
  end.

Section WithDriver.
Context {World : Type} {driver : Driver World}.

(** Reading the clock: the time as text, and the world a moment
    later. *)
Variable tick : World -> jsstring * World.

(** [new Date().toISOString()] *)
Definition newDate : M (St := Singleton.process World) jsstring :=
  fun p =>
    match p with
    | Singleton.NoInstance w =>
        let (t, w') := tick w in (inr t, Singleton.NoInstance w')
    | Singleton.Instance st =>
        let (t, w') := tick (Scraper.world st) in
        (inr t, Singleton.Instance (Scraper.setWorld w' st))
    end.

Local Open Scope js_scope.

(** The [data] object of a response. *)
Definition stamp (d : Types.ScrapedData)
    : M (St := Singleton.process World) ScrapeResult :=
  t <- newDate ;;
  ret {| price := Types.price d;
         resultCurrency := Types.currency d;
         productName := Types.productName d;
         imageUrl := Types.imageUrl d;
         scrapedAt := t;
         rawPrice := Types.rawPrice d |}.

(** The [catch] of both handlers, for an error that is not a schema
    error: [error instanceof Error ? error.message : 'Unknown error']. *)
Definition answer {A} (m : M (St := Singleton.process World) A)
    : Singleton.process World -> response A * Singleton.process World :=
  fun p =>
    match m p with
    | (inr a, p') => (Ok200 a, p')
    | (inl (JsError message), p') => (Error500 message, p')
    | (inl JsUndefined, p') => (Error500 (lit "Unknown error"), p')
    end.

(** [POST /scrape] *)
Definition scrapeHandler (validatedData : ScrapeRequest)
    : Singleton.process World -> response ScrapeResult * Singleton.process World :=
  answer
    (Singleton.getScraper ;;;
     result <- Singleton.onInstance
                 (Scraper.scrapeWithRetry (url validatedData)
                    (priceSelector validatedData) (nameSelector validatedData)
                    (imageSelector validatedData)
                    {| Types.timeout := Some (orDefaultTimeout (timeout validatedData));
                       Types.waitForSelector := waitForSelector validatedData;
                       Types.headless := None;
                       Types.userAgent := None |}
                    defaultMaxRetries) ;;
     stamp result).

(** [results.map((result, index) => ({ id: competitors[index].id, ... }))]
    from the index [index] on; reading [id] of a missing element is a
    [TypeError]. *)
Fixpoint label (competitors : list Competitor) (index : nat)
    (results : list Scraper.batchResult)
    : M (St := Singleton.process World) (list ScrapeBatchResult) :=
  match results with
  | [] => ret []
  | r :: results' =>
      match nth_error competitors index with
      | None => throw (JsError (lit "Cannot read properties of undefined"))
      | Some c =>
          d <- match Scraper.data r with
               | Some d => s <- stamp d ;; ret (Some s)
               | None => ret None
               end ;;
          l <- label competitors (S index) results' ;;
          ret ({| resultId := id c;
                  success := Scraper.success r;
                  data := d;
                  error := Scraper.error r |} :: l)
      end
  end.

Definition asRequest (c : Competitor) : Scraper.request :=
  {| Scraper.url := url (request c);
     Scraper.priceSelector := priceSelector (request c);
     Scraper.nameSelector := nameSelector (request c);
     Scraper.imageSelector := imageSelector (request c) |}.

(** The options of a batch are those of its first competitor. *)
Definition batchOptions (competitors : list Competitor) : Types.ScraperOptions :=
  {| Types.timeout :=
       Some (orDefaultTimeout
               (match competitors with
                | c :: _ => timeout (request c)
                | [] => None
                end));
     Types.waitForSelector :=
       match competitors with
       | c :: _ => waitForSelector (request c)
       | [] => None
       end;
     Types.headless := None;
     Types.userAgent := None |}.

(** [POST /scrape/batch] *)
Definition batchHandler (competitors : list Competitor)
    : Singleton.process World
      -> response (list ScrapeBatchResult) * Singleton.process World :=
  answer
    (Singleton.getScraper ;;;
     results <- Singleton.onInstance
                  (Scraper.scrapeBatch (map asRequest competitors)
                     (batchOptions competitors) defaultMaxRetries) ;;
     label competitors 0 results).

End WithDriver.

End Server.

(** ** Requests for the concrete runs *)

Module Requests.
Import Server.

Definition plain (u : jsstring) : ScrapeRequest :=
  {| url := u; priceSelector := Shops.priceSel; nameSelector := None;
     imageSelector := Some Shops.imageSel; currency := None;
     waitForSelector := None; timeout := None |}.

(** The same target with options of its own. *)
Definition hurried (u : jsstring) : ScrapeRequest :=
  {| url := u; priceSelector := Shops.priceSel; nameSelector := None;
     imageSelector := Some Shops.imageSel; currency := Some (lit "EUR");
     waitForSelector := Some (lit ".loaded"); timeout := Some 5%Z |}.

Definition batch : list Competitor :=
  [ {| id := lit "a"; request := plain Shops.urlA |};
    {| id := lit "b"; request := plain Shops.urlB |} ].

Definition batch' : list Competitor :=
  [ {| id := lit "a"; request := plain Shops.urlA |};
    {| id := lit "b"; request := hurried Shops.urlB |} ].

(** A clock that has stopped. *)
Definition noon (w : Fake.world) : jsstring * Fake.world :=
  (lit "2024-01-01T12:00:00.000Z", w).

Definition idle : Singleton.process Fake.world :=
  Singleton.NoInstance Shops.theWeb.

End Requests.

(** * Properties *)

(** ** Character classes *)

Ltac class_arith :=
  unfold notNumeric, isComma, isWhiteSpace, isWordChar, isDigit, isUpper,
    isLower, inRange in *;
  repeat rewrite ?negb_true_iff, ?negb_false_iff, ?orb_true_iff,
    ?orb_false_iff, ?andb_true_iff, ?andb_false_iff, ?N.leb_le, ?N.leb_gt,
    ?N.eqb_eq, ?N.eqb_neq in *;
  lia.

Lemma whiteSpace_notNumeric c : isWhiteSpace c = true -> notNumeric c = true.
Proof. intros H. class_arith. Qed.

Lemma whiteSpace_notWord c : isWhiteSpace c = true -> isWordChar c = false.
Proof. intros H. class_arith. Qed.

Lemma whiteSpace_notLetter c : isWhiteSpace c = true -> isLetter c = false.
Proof. unfold isLetter. intros H. class_arith. Qed.

Lemma comma_notNumeric c : isComma c = true -> notNumeric c = true.
Proof. intros H. class_arith. Qed.

Lemma letter_notNumeric c : isLetter c = true -> notNumeric c = true.
Proof. unfold isLetter. intros H. class_arith. Qed.

Lemma letter_word c : isLetter c = true -> isWordChar c = true.
Proof. unfold isLetter. intros H. class_arith. Qed.

Lemma canonicalize_upper c :
  isUpper (canonicalize c) = true -> isLetter c = true.
Proof.
  unfold canonicalize, toUpperUnit, isLetter.
  destruct (isLower c) eqn:E; intros H.
  - apply orb_true_r.
  - rewrite H. reflexivity.
Qed.

(** ** Strings *)

Lemma eqb_eq a b : JsString.eqb a b = true <-> a = b.
Proof.
  revert b. induction a as [|x a IH]; intros [|y b]; simpl; split;
    try congruence; try reflexivity.
  - rewrite andb_true_iff, N.eqb_eq, IH. intros [-> ->]. reflexivity.
  - intros [= -> ->]. rewrite N.eqb_refl. apply IH. reflexivity.
Qed.

Lemma removeAll_app cls a b :
  removeAll cls (a ++ b) = removeAll cls a ++ removeAll cls b.
Proof. apply filter_app. Qed.

Lemma removeAll_none cls s :
  forallb cls s = true -> removeAll cls s = [].
Proof.
  induction s as [|c s IH]; simpl; [reflexivity|].
  rewrite andb_true_iff. intros [H1 H2]. rewrite H1. simpl. auto.
Qed.

Lemma removeAll_dropWhile cls f s :
  (forall c, f c = true -> cls c = true) ->
  removeAll cls (dropWhile f s) = removeAll cls s.
Proof.
  intros Hf. induction s as [|c s IH]; simpl; [reflexivity|].
  destruct (f c) eqn:E; [|reflexivity].
  rewrite (Hf c E). simpl. exact IH.
Qed.

Lemma removeAll_rev cls s : removeAll cls (rev s) = rev (removeAll cls s).
Proof.
  induction s as [|c s IH]; simpl; [reflexivity|].
  rewrite removeAll_app, IH. simpl.
  destruct (cls c); simpl; [apply app_nil_r | reflexivity].
Qed.

Lemma removeAll_trim cls s :
  (forall c, isWhiteSpace c = true -> cls c = true) ->
  removeAll cls (trim s) = removeAll cls s.
Proof.
  intros H. unfold trim, trimEnd, trimStart.
  rewrite removeAll_rev, removeAll_dropWhile, removeAll_rev, rev_involutive by exact H.
  apply removeAll_dropWhile. exact H.
Qed.

Lemma removeAll_absorb cls1 cls2 s :
  (forall c, cls1 c = true -> cls2 c = true) ->
  removeAll cls2 (removeAll cls1 s) = removeAll cls2 s.
Proof.
  intros H. induction s as [|c s IH]; simpl; [reflexivity|].
  destruct (cls1 c) eqn:E; simpl.
  - rewrite (H c E). simpl. exact IH.
  - destruct (cls2 c); simpl; rewrite IH; reflexivity.
Qed.

Lemma startsWith_split p s :
  startsWith p s = true -> s = p ++ skipn (List.length p) s.
Proof.
  revert s. induction p as [|a p IH]; intros s; simpl; [reflexivity|].
  destruct s as [|b s]; [discriminate|].
  rewrite andb_true_iff, N.eqb_eq. intros [-> H]. f_equal. apply IH, H.
Qed.

Lemma removeAll_removeFirst cls s p :
  forallb cls p = true ->
  removeAll cls (removeFirst s p) = removeAll cls s.
Proof.
  intros Hp. induction s as [|c s IH].
  - simpl. destruct (startsWith p []) eqn:E; [|reflexivity].
    destruct p; [reflexivity | discriminate].
  - cbn [removeFirst]. destruct (startsWith p (c :: s)) eqn:E.
    + rewrite (startsWith_split _ _ E) at 2.
      rewrite removeAll_app, (removeAll_none _ _ Hp). reflexivity.
    + simpl. rewrite IH. reflexivity.
Qed.

Lemma dropWhile_split f s :
  exists pre, s = pre ++ dropWhile f s /\ forallb f pre = true.
Proof.
  induction s as [|c s (pre & E & H)]; simpl.
  - exists []. split; reflexivity.
  - destruct (f c) eqn:Ec.
    + exists (c :: pre). simpl. rewrite Ec, H. split; [f_equal; exact E | reflexivity].
    + exists []. split; reflexivity.
Qed.

Lemma forallb_rev {A} (f : A -> bool) l : forallb f (rev l) = forallb f l.
Proof.
  induction l as [|a l IH]; simpl; [reflexivity|].
  rewrite forallb_app, IH. simpl. rewrite andb_true_r. apply andb_comm.
Qed.

Lemma trimEnd_split s :
  exists ws, s = trimEnd s ++ ws /\ forallb isWhiteSpace ws = true.
Proof.
  unfold trimEnd.
  destruct (dropWhile_split isWhiteSpace (rev s)) as (pre & E & H).
  exists (rev pre). split.
  - rewrite <- rev_app_distr, <- E, rev_involutive. reflexivity.
  - rewrite forallb_rev. exact H.
Qed.

(** ** The code pattern *)

Lemma alternatives_upper :
  forallb (forallb isUpper) codeAlternatives = true.
Proof. reflexivity. Qed.

Lemma alternative_letters tok :
  existsb (JsString.eqb (map canonicalize tok)) codeAlternatives = true ->
  forallb isLetter tok = true /\ In (toUpperCase tok) codeAlternatives.
Proof.
  rewrite existsb_exists. intros (alt & Hin & Heq).
  apply eqb_eq in Heq.
  assert (Hup : forallb isUpper alt = true).
  { pose proof alternatives_upper as H. rewrite forallb_forall in H. auto. }
  split.
  - rewrite <- Heq in Hup. clear - Hup.
    induction tok as [|c tok IH]; simpl in *; [reflexivity|].
    apply andb_true_iff in Hup as [H1 H2].
    rewrite (canonicalize_upper _ H1), IH; auto.
  - unfold toUpperCase. change toUpperUnit with canonicalize.
    rewrite Heq. exact Hin.
Qed.

Lemma matchCodeAt_some prev s tok :
  matchCodeAt prev s = Some tok ->
  s = tok ++ skipn 3 s /\ forallb isLetter tok = true
  /\ In (toUpperCase tok) codeAlternatives.
Proof.
  unfold matchCodeAt. destruct s as [|a [|b [|c rest]]]; try discriminate.
  destruct (wordBoundary prev (Some a)); cbn [andb]; [|discriminate].
  destruct (existsb (JsString.eqb (map canonicalize [a; b; c])) codeAlternatives)
    eqn:E; cbn [andb]; [|discriminate].
  destruct (wordBoundary (Some c) (hd_error rest)); [|discriminate].
  intros [= <-]. split; [reflexivity|]. apply alternative_letters, E.
Qed.

Lemma matchCodeAt_prev p1 p2 s :
  isWord p1 = isWord p2 -> matchCodeAt p1 s = matchCodeAt p2 s.
Proof.
  intros H. unfold matchCodeAt, wordBoundary. rewrite H. reflexivity.
Qed.

Lemma execFrom_prev p1 p2 s :
  isWord p1 = isWord p2 -> execFrom p1 s = execFrom p2 s.
Proof.
  intros H. destruct s; cbn [execFrom];
    rewrite (matchCodeAt_prev p1 p2) by exact H; reflexivity.
Qed.

Lemma execFrom_split prev s m :
  execFrom prev s = Some m ->
  s = before m ++ group1 m ++ after m
  /\ forallb isLetter (group1 m) = true
  /\ In (toUpperCase (group1 m)) codeAlternatives.
Proof.
  revert prev m. induction s as [|c s IH]; intros prev m.
  - simpl. discriminate.
  - cbn [execFrom]. destruct (matchCodeAt prev (c :: s)) as [tok|] eqn:E.
    + intros [= <-]. cbn [before group1 after].
      apply matchCodeAt_some in E as (E1 & E2 & E3). auto.
    + destruct (execFrom (Some c) s) as [m'|] eqn:E'; [|discriminate].
      intros [= <-]. cbn [before group1 after].
      apply IH in E' as (E1 & E2 & E3). split; [|auto].
      simpl. f_equal. exact E1.
Qed.

Lemma matchCodeAt_notLetter prev c s :
  isLetter c = false -> matchCodeAt prev (c :: s) = None.
Proof.
  intros H. unfold matchCodeAt. destruct s as [|b [|d rest]]; try reflexivity.
  destruct (existsb (JsString.eqb (map canonicalize [c; b; d])) codeAlternatives)
    eqn:E.
  - apply alternative_letters in E as [E _]. simpl in E. rewrite H in E.
    discriminate.
  - rewrite andb_false_r. reflexivity.
Qed.

Lemma matchCodeAt_app_ws prev s ws :
  forallb isWhiteSpace ws = true ->
  matchCodeAt prev (s ++ ws) = matchCodeAt prev s.
Proof.
  intros Hws.
  assert (Hhd : isWord (hd_error ws) = false).
  { destruct ws as [|w ws']; [reflexivity|]. simpl in *.
    apply andb_true_iff in Hws as [H _]. apply whiteSpace_notWord, H. }
  assert (Hnl : forall w, In w ws -> isLetter w = false).
  { intros w Hin. rewrite forallb_forall in Hws.
    apply whiteSpace_notLetter, Hws, Hin. }
  assert (Hno : forall a b c, In a ws \/ In b ws \/ In c ws ->
            existsb (JsString.eqb (map canonicalize [a; b; c])) codeAlternatives = false).
  { intros a b c Hin.
    destruct (existsb _ codeAlternatives) eqn:E; [|reflexivity].
    apply alternative_letters in E as [E _]. simpl in E.
    rewrite !andb_true_iff in E. destruct E as (Ea & Eb & Ec & _).
    destruct Hin as [H|[H|H]]; apply Hnl in H; congruence. }
  destruct s as [|a [|b [|c rest]]]; cbn [app matchCodeAt].
  - destruct ws as [|a [|b [|c rest]]]; try reflexivity. cbn [matchCodeAt].
    rewrite Hno by (simpl; auto). rewrite andb_false_r. reflexivity.
  - destruct ws as [|b [|c rest]]; try reflexivity.
    rewrite Hno by (simpl; auto). rewrite andb_false_r. reflexivity.
  - destruct ws as [|c rest]; try reflexivity.
    rewrite Hno by (simpl; auto). rewrite andb_false_r. reflexivity.
  - destruct rest as [|d rest]; [|reflexivity].
    cbn [app]. unfold wordBoundary. rewrite Hhd. reflexivity.
Qed.

Lemma execFrom_ws prev ws :
  forallb isWhiteSpace ws = true -> execFrom prev ws = None.
Proof.
  revert prev. induction ws as [|w ws IH]; intros prev; [reflexivity|].
  simpl forallb. rewrite andb_true_iff. intros [Hw Hws].
  cbn [execFrom]. rewrite matchCodeAt_notLetter by (apply whiteSpace_notLetter, Hw).
  rewrite IH by exact Hws. reflexivity.
Qed.

Lemma execFrom_app_ws prev s ws :
  forallb isWhiteSpace ws = true ->
  matched (execFrom prev (s ++ ws)) = matched (execFrom prev s).
Proof.
  intros Hws. revert prev. induction s as [|c s IH]; intros prev.
  - simpl app. rewrite execFrom_ws by exact Hws. reflexivity.
  - change ((c :: s) ++ ws) with (c :: (s ++ ws)). cbn [execFrom].
    change (c :: (s ++ ws)) with ((c :: s) ++ ws).
    rewrite matchCodeAt_app_ws by exact Hws.
    destruct (matchCodeAt prev (c :: s)); [reflexivity|].
    specialize (IH (Some c)). unfold matched in *.
    destruct (execFrom (Some c) (s ++ ws)), (execFrom (Some c) s);
      simpl in *; congruence.
Qed.

Lemma execFrom_trimStart prev s :
  isWord prev = false ->
  matched (execFrom prev (trimStart s)) = matched (execFrom prev s).
Proof.
  intros Hp. unfold trimStart. induction s as [|c s IH]; [reflexivity|].
  cbn [dropWhile]. destruct (isWhiteSpace c) eqn:E; [|reflexivity].
  rewrite IH. cbn [execFrom].
  rewrite matchCodeAt_notLetter by (apply whiteSpace_notLetter, E).
  rewrite (execFrom_prev (Some c) prev)
    by (simpl; rewrite Hp; apply whiteSpace_notWord, E).
  unfold matched. destruct (execFrom prev s); reflexivity.
Qed.

Lemma matchCode_trim s :
  matched (matchCode (trim s)) = matched (matchCode s).
Proof.
  unfold matchCode, trim.
  destruct (trimEnd_split (trimStart s)) as (ws & E & Hws).
  rewrite <- (execFrom_trimStart None s) by reflexivity.
  rewrite E at 2. rewrite execFrom_app_ws by exact Hws. reflexivity.
Qed.

(** ** parsePrice: what reaches parseFloat *)

Lemma symbols_notNumeric :
  forallb (fun p => forallb notNumeric (symbol p)) currencyPatterns = true.
Proof. reflexivity. Qed.

Lemma symbolScan_numeric table cleaned cur ps :
  forallb (fun p => forallb notNumeric (symbol p)) table = true ->
  removeAll notNumeric ps = removeAll notNumeric cleaned ->
  removeAll notNumeric (snd (symbolScan table cleaned cur ps))
  = removeAll notNumeric cleaned.
Proof.
  intros Ht Hps. induction table as [|p table IH]; simpl; [exact Hps|].
  simpl in Ht. apply andb_true_iff in Ht as [Hp Ht].
  destruct (includes cleaned (symbol p)); [|exact (IH Ht)].
  simpl. rewrite removeAll_trim by exact whiteSpace_notNumeric.
  apply removeAll_removeFirst, Hp.
Qed.

Lemma removeCode_numeric s :
  removeAll notNumeric (removeCode s) = removeAll notNumeric s.
Proof.
  unfold removeCode, matchCode.
  destruct (execFrom None s) as [m|] eqn:E; [|reflexivity].
  apply execFrom_split in E as (E & Hl & _).
  rewrite E, !removeAll_app. f_equal.
  rewrite (removeAll_none notNumeric (group1 m)); [reflexivity|].
  rewrite forallb_forall in *. intros c Hc. apply letter_notNumeric, Hl, Hc.
Qed.

Lemma detect_numeric cleaned :
  removeAll notNumeric (removeAll isComma (snd (detect cleaned)))
  = removeAll notNumeric cleaned.
Proof.
  rewrite removeAll_absorb by exact comma_notNumeric.
  unfold detect.
  pose proof (symbolScan_numeric currencyPatterns cleaned (lit "USD") cleaned
                symbols_notNumeric eq_refl) as Hs.
  destruct (symbolScan currencyPatterns cleaned (lit "USD") cleaned) as [cur ps].
  destruct (matchCode cleaned) as [m|]; simpl snd in *; [|exact Hs].
  rewrite removeAll_trim by exact whiteSpace_notNumeric.
  apply removeCode_numeric.
Qed.

(** [parsePrice] in closed form: the amount is read from the digits,
    points and minus signs of the input, whatever was detected. *)
Lemma parsePrice_closed priceText :
  parsePrice priceText =
  if ParseFloat.isNil priceText then inl (JsError (lit "Price text is empty"))
  else if isNaN (parseFloat (removeAll notNumeric priceText))
       then inl (JsError (lit "Could not parse price from: " ++ priceText))
       else inr {| price := parseFloat (removeAll notNumeric priceText);
                   currency := fst (detect (trim priceText)) |}.
Proof.
  unfold parsePrice. destruct (ParseFloat.isNil priceText); [reflexivity|].
  pose proof (detect_numeric (trim priceText)) as H.
  rewrite removeAll_trim in H by exact whiteSpace_notNumeric.
  destruct (detect (trim priceText)) as [cur ps]. simpl in H. rewrite H.
  reflexivity.
Qed.

(** ** parsePrice: the currency *)

Lemma includes_singleton s c : includes s [c] = existsb (N.eqb c) s.
Proof.
  induction s as [|x s IH]; [reflexivity|].
  cbn [includes existsb startsWith]. rewrite IH.
  destruct s; rewrite andb_true_r; reflexivity.
Qed.

Lemma existsb_dropWhile (f g : N -> bool) s :
  (forall x, f x = true -> g x = false) ->
  existsb g (dropWhile f s) = existsb g s.
Proof.
  intros H. induction s as [|x s IH]; [reflexivity|]. simpl.
  destruct (f x) eqn:E; [|reflexivity]. rewrite (H x E). exact IH.
Qed.

Lemma existsb_reverse {A} (f : A -> bool) l : existsb f (rev l) = existsb f l.
Proof.
  induction l as [|a l IH]; simpl; [reflexivity|].
  rewrite existsb_app, IH. simpl. rewrite orb_false_r. apply orb_comm.
Qed.

Lemma existsb_trim g s :
  (forall x, isWhiteSpace x = true -> g x = false) ->
  existsb g (trim s) = existsb g s.
Proof.
  intros H. unfold trim, trimEnd, trimStart.
  rewrite existsb_reverse, existsb_dropWhile, existsb_reverse by exact H.
  apply existsb_dropWhile, H.
Qed.

Lemma symbols_single :
  forallb (fun p => match symbol p with
                    | [c] => negb (isWhiteSpace c)
                    | _ => false
                    end) currencyPatterns = true.
Proof. reflexivity. Qed.

Lemma includes_trim_symbol s p :
  In p currencyPatterns ->
  includes (trim s) (symbol p) = includes s (symbol p).
Proof.
  intros Hp. pose proof symbols_single as H. rewrite forallb_forall in H.
  specialize (H p Hp). destruct (symbol p) as [|c [|? ?]]; try discriminate.
  rewrite !includes_singleton. apply existsb_trim.
  intros x Hx. apply N.eqb_neq. intros ->. rewrite Hx in H. discriminate.
Qed.

Lemma symbolScan_find table cleaned cur ps :
  symbolScan table cleaned cur ps =
  match find (fun p => includes cleaned (symbol p)) table with
  | Some p => (code p, trim (removeFirst cleaned (symbol p)))
  | None => (cur, ps)
  end.
Proof.
  induction table as [|p table IH]; simpl; [reflexivity|].
  destruct (includes cleaned (symbol p)); [reflexivity | exact IH].
Qed.



Lemma symbolCurrency_some s :
  hasSymbol s ->
  exists p, In p currencyPatterns /\ includes s (symbol p) = true
            /\ symbolCurrency (trim s) = code p.
Proof.
  intros (q & Hq & Hinc). unfold symbolCurrency. rewrite symbolScan_find.
  destruct (find (fun p => includes (trim s) (symbol p)) currencyPatterns)
    as [p|] eqn:E.
  - apply find_some in E as [Hin Hp]. exists p.
    rewrite includes_trim_symbol in Hp by exact Hin. auto.
  - apply find_none with (x := q) in E; [|exact Hq].
    rewrite includes_trim_symbol in E by exact Hq. congruence.
Qed.

Lemma detect_currency cleaned :
  fst (detect cleaned) =
  match matchCode cleaned with
  | Some m => toUpperCase (group1 m)
  | None => symbolCurrency cleaned
  end.
Proof.
  unfold detect, symbolCurrency.
  destruct (symbolScan currencyPatterns cleaned (lit "USD") cleaned).
  destruct (matchCode cleaned); reflexivity.
Qed.

Lemma detect_trim_code s m :
  matchCode s = Some m ->
  fst (detect (trim s)) = toUpperCase (group1 m).
Proof.
  intros Hm. rewrite detect_currency.
  pose proof (matchCode_trim s) as H. rewrite Hm in H.
  destruct (matchCode (trim s)) as [m'|]; simpl in H; [|discriminate].
  injection H as ->. reflexivity.
Qed.

Lemma detect_trim_symbol s :
  matchCode s = None ->
  fst (detect (trim s)) = symbolCurrency (trim s).
Proof.
  intros Hm. rewrite detect_currency.
  pose proof (matchCode_trim s) as H. rewrite Hm in H.
  destruct (matchCode (trim s)) as [m'|]; simpl in H; [discriminate|].
  reflexivity.
Qed.

(** C1.  When the input contains a currency symbol and a code token of
    the allow-list, the symbol loop has chosen a currency of the table,
    but the result carries the upper-cased code token: whenever the input
    without the token parses to an amount, the input with it parses to
    the same amount in the token's currency, and otherwise both fail.
    In particular "$50 EUR" gives 50 in EUR. *)
Theorem code_overrides_symbol (s : jsstring) (m : regexMatch) :
  hasSymbol s ->
  matchCode s = Some m ->
  In (toUpperCase (group1 m)) codeAlternatives
  /\ (exists p, In p currencyPatterns /\ symbolCurrency (trim s) = code p)
  /\ match parsePrice (before m ++ after m) with
     | inr r =>
         parsePrice s
         = inr {| price := price r; currency := toUpperCase (group1 m) |}
     | inl _ => exists e, parsePrice s = inl e
     end
  /\ parsePrice (lit "$50 EUR")
     = inr {| price := Decimal false 50 0; currency := lit "EUR" |}.
Proof.
  intros Hsym Hm.
  pose proof Hm as Hsplit. apply execFrom_split in Hsplit as (Hs & Hl & Hin).
  split; [exact Hin|]. split.
  { destruct (symbolCurrency_some s Hsym) as (p & Hp & _ & Hc). eauto. }
  split; [|reflexivity].
  assert (Hnum : removeAll notNumeric (before m ++ after m)
                 = removeAll notNumeric s).
  { pose proof (removeCode_numeric s) as H. unfold removeCode in H.
    rewrite Hm in H. exact H. }
  rewrite !parsePrice_closed, Hnum, (detect_trim_code s m Hm).
  destruct s as [|c s]; [discriminate|]. cbn [ParseFloat.isNil].
  destruct (before m ++ after m) as [|c' s'] eqn:E; cbn [ParseFloat.isNil].
  - rewrite <- Hnum. simpl. eauto.
  - destruct (isNaN (parseFloat (removeAll notNumeric (c :: s)))); eauto.
Qed.

Lemma code_overrides_symbol_witness :
  hasSymbol (lit "$50 EUR")
  /\ matchCode (lit "$50 EUR")
     = Some {| before := lit "$50 "; group1 := lit "EUR"; after := [] |}
  /\ parsePrice (lit "$50 EUR")
     = inr {| price := Decimal false 50 0; currency := lit "EUR" |}.
Proof.
  assert (H1 : hasSymbol (lit "$50 EUR")).
  { exists {| symbol := [DOLLAR]; code := lit "USD" |}.
    split; [left; reflexivity | reflexivity]. }
  assert (H2 : matchCode (lit "$50 EUR")
               = Some {| before := lit "$50 "; group1 := lit "EUR"; after := [] |})
    by reflexivity.
  split; [exact H1|]. split; [exact H2|].
  exact (proj1 (proj2 (proj2 (code_overrides_symbol _ _ H1 H2)))).
Defined.




(** ** parseFloat on the characters parsePrice keeps *)

Lemma removeAll_numeric s : forallb isNumeric (removeAll notNumeric s) = true.
Proof.
  rewrite forallb_forall. intros c Hc. unfold removeAll in Hc.
  apply filter_In in Hc as [_ Hc]. exact Hc.
Qed.

Lemma span_spec f s :
  s = fst (span f s) ++ snd (span f s)
  /\ forallb f (fst (span f s)) = true
  /\ match snd (span f s) with [] => True | c :: _ => f c = false end.
Proof.
  induction s as [|c s (IH1 & IH2 & IH3)]; simpl; [auto|].
  destruct (f c) eqn:E.
  - destruct (span f s) as [a b]. simpl in *. rewrite E, IH2.
    repeat split; [f_equal; exact IH1 | exact IH3].
  - simpl. auto.
Qed.








Lemma digits_head ds rest c u :
  DecimalDigits ds -> ds ++ rest = c :: u -> isDigit c = true.
Proof.
  intros [Hne Hd] E. destruct ds as [|d ds]; [congruence|].
  simpl in *. injection E as -> _. apply andb_true_iff in Hd as [H _]. exact H.
Qed.

Lemma numeric_not_Infinity u :
  forallb isNumeric u = true -> startsWith (lit "Infinity") u = false.
Proof.
  destruct u as [|c u]; [reflexivity|].
  change (lit "Infinity") with (73 :: lit "nfinity"). cbn [startsWith forallb].
  intros H. apply andb_true_iff in H as [H _].
  destruct (N.eqb_spec 73 c) as [<-|_]; [discriminate | reflexivity].
Qed.








Lemma numeric_trimStart f :
  forallb isNumeric f = true -> trimStart f = f.
Proof.
  destruct f as [|c f]; [reflexivity|]. unfold trimStart. simpl. intros H.
  apply andb_true_iff in H as [H _].
  destruct (isWhiteSpace c) eqn:E; [|reflexivity].
  apply whiteSpace_notNumeric in E. unfold isNumeric in H. rewrite E in H.
  discriminate.
Qed.












(** ** The session: initialize and close *)

Section Session.
Context {World : Type} {driver : Driver World}.
Import Scraper.

Lemma initialize_live options (st : state World) b :
  browser st = Some b -> initialize options st = (inr tt, st).
Proof. intros H. unfold initialize, bind, gets. rewrite H. reflexivity. Qed.

Lemma initialize_sets options (st st1 : state World) :
  initialize options st = (inr tt, st1) ->
  browser st = None ->
  exists b c p,
    browser st1 = Some b /\ context st1 = Some c /\ page st1 = Some p.
Proof.
  unfold initialize, bind, gets, modify, call. intros H Hb. rewrite Hb in H.
  destruct (launch _ (world st)) as [[e|b] w1]; [discriminate|].
  cbn in H. destruct (newContext b _ w1) as [[e|c] w2]; [discriminate|].
  cbn in H. destruct (newPage c w2) as [[e|p] w3]; [discriminate|].
  cbn in H. injection H as <-. exists b, c, p. auto.
Qed.

Lemma initialize_browser options (st st1 : state World) :
  initialize options st = (inr tt, st1) -> exists b, browser st1 = Some b.
Proof.
  intros H. destruct (browser st) as [b|] eqn:Hb.
  - rewrite (initialize_live options st b Hb) in H. injection H as <-. eauto.
  - destruct (initialize_sets _ _ _ H Hb) as (b & _ & _ & E & _). eauto.
Qed.
(** C8.  After a call of [initialize] that has succeeded, a second call
    (with any options) returns at once: it makes no runtime call and
    leaves every field, and the world, as the first call left them.  The
    engine, context and page set by the first call are the ones in place
    after the second.  Two calls in sequence are one call. *)
Theorem initialize_idempotent options options' (st st1 : state World) :
  initialize options st = (inr tt, st1) ->
  initialize options' st1 = (inr tt, st1)
  /\ (browser st = None ->
      exists b c p,
        browser st1 = Some b /\ context st1 = Some c /\ page st1 = Some p)
  /\ bind (initialize options) (fun _ => initialize options') st
     = initialize options st.
Proof.
  intros H. destruct (initialize_browser _ _ _ H) as (b & Hb).
  split; [exact (initialize_live options' st1 b Hb)|]. split.
  - intros Hn. exact (initialize_sets _ _ _ H Hn).
  - unfold bind at 1. rewrite H. rewrite (initialize_live options' st1 b Hb).
    reflexivity.
Qed.

(** C7 (amended).  [close] closes the page, then the context, then the
    engine, each behind a test of its reference, so that an empty
    reference at one level is passed over and the next level is still
    closed; when the close calls that are made succeed, the three
    references are empty afterward.  A close call that rejects ends
    [close] with that rejection: the levels after it are not closed and
    keep their references. *)
Theorem close_levels (st : state World) :
  (forall w1 w2 w3,
     closeIf (page st) closePage (world st) = (inr tt, w1) ->
     closeIf (context st) closeContext w1 = (inr tt, w2) ->
     closeIf (browser st) closeBrowser w2 = (inr tt, w3) ->
     close st = (inr tt, fresh w3))
  /\ (forall e w1,
        closeIf (page st) closePage (world st) = (inl e, w1) ->
        close st = (inl e, setWorld w1 st))
  /\ (forall e w1 w2,
        closeIf (page st) closePage (world st) = (inr tt, w1) ->
        closeIf (context st) closeContext w1 = (inl e, w2) ->
        close st = (inl e, setWorld w2 (setPage None st)))
  /\ (forall e w1 w2 w3,
        closeIf (page st) closePage (world st) = (inr tt, w1) ->
        closeIf (context st) closeContext w1 = (inr tt, w2) ->
        closeIf (browser st) closeBrowser w2 = (inl e, w3) ->
        close st = (inl e, setWorld w3 (setContext None (setPage None st)))).
Proof.
  destruct st as [b c p w]. unfold closeIf. cbn [page context browser world].
  repeat split.
  - intros w1 w2 w3 H1 H2 H3.
    unfold close, bind, gets, call, modify, ret.
    destruct p as [p|]; cbn; [rewrite H1 | injection H1 as <-]; cbn;
      (destruct c as [c|]; cbn; [rewrite H2 | injection H2 as <-]); cbn;
      (destruct b as [b|]; cbn; [rewrite H3 | injection H3 as <-]);
      reflexivity.
  - intros e w1 H1. unfold close, bind, gets, call, modify, ret.
    destruct p as [p|]; [|discriminate]. cbn. rewrite H1. reflexivity.
  - intros e w1 w2 H1 H2. unfold close, bind, gets, call, modify, ret.
    destruct p as [p|]; cbn; [rewrite H1 | injection H1 as <-]; cbn;
      (destruct c as [c|]; [|discriminate]); cbn; rewrite H2; reflexivity.
  - intros e w1 w2 w3 H1 H2 H3. unfold close, bind, gets, call, modify, ret.
    destruct p as [p|]; cbn; [rewrite H1 | injection H1 as <-]; cbn;
      (destruct c as [c|]; cbn; [rewrite H2 | injection H2 as <-]); cbn;
      (destruct b as [b|]; [|discriminate]); cbn; rewrite H3; reflexivity.
Qed.

End Session.

(** ** scrape: the price step *)

Section PriceStep.
Context {World : Type} {driver : Driver World}.
Import Scraper.

(** A failure of the price step, once the page has been reached, is what
    [scrape] rejects with, under the URL. *)
Lemma scrape_price_failure url sel ns imgs options
    (st st1 st3 st4 : state World) p e :
  initialize options st = (inr tt, st1) ->
  page st1 = Some p ->
  settle p url options st1 = (inr tt, st3) ->
  extractPrice p sel st3 = (inl e, st4) ->
  scrape url sel ns imgs options st
  = (inl (ScrapeError url (errorMessage e)), st4).
Proof.
  intros Hi Hp Hs He. unfold scrape, bind at 1. rewrite Hi.
  unfold bind at 1, gets. rewrite Hp. unfold tryCatch, bind at 1. rewrite Hs.
  unfold bind at 1. rewrite He. reflexivity.
Qed.

Lemma extractPrice_not_found p sel (st : state World) w :
  query p sel (world st) = (inr None, w) ->
  extractPrice p sel st = (inl (JsError (ElementNotFound sel)), setWorld w st).
Proof.
  intros H. unfold extractPrice, bind, call. rewrite H. reflexivity.
Qed.

Lemma extractPrice_no_text p sel (st : state World) h w t w' :
  query p sel (world st) = (inr (Some h), w) ->
  elementText h w = (inr t, w') ->
  truthy t = false ->
  extractPrice p sel st = (inl (JsError EmptyContent), setWorld w' st).
Proof.
  intros H Ht Hf. unfold extractPrice, bind, call. rewrite H. cbn.
  rewrite Ht. destruct t as [[|c t]|]; try discriminate; reflexivity.
Qed.

Lemma parsePrice_blank text :
  text <> [] -> forallb isWhiteSpace text = true ->
  parsePrice text = inl (JsError (ParseError text)).
Proof.
  intros Hne Hws. rewrite parsePrice_closed.
  destruct text as [|c t]; [congruence|]. cbn [ParseFloat.isNil].
  rewrite (removeAll_none notNumeric (c :: t)); [reflexivity|].
  rewrite forallb_forall in *. intros x Hx. apply whiteSpace_notNumeric, Hws, Hx.
Qed.

Lemma extractPrice_blank p sel (st : state World) h w text w' :
  query p sel (world st) = (inr (Some h), w) ->
  elementText h w = (inr (Some text), w') ->
  text <> [] -> forallb isWhiteSpace text = true ->
  extractPrice p sel st = (inl (JsError (ParseError text)), setWorld w' st).
Proof.
  intros H Ht Hne Hws. unfold extractPrice, bind, call. rewrite H.
  cbv beta iota. cbn [world setWorld]. rewrite Ht.
  destruct text as [|c t]; [congruence|].
  cbv beta iota. unfold liftResult.
  rewrite (parsePrice_blank (c :: t) Hne Hws). reflexivity.
Qed.

(** C4 (amended).  Once the page has been reached, the price step of
    [scrape] fails in distinct ways: with ElementNotFound when no
    element matches the price selector, with EmptyContent when the
    matched element has no text or the empty text, and with the parse
    error of the price text when that text is not empty but consists of
    white space only.  Each is rejected under the URL. *)
Theorem price_failure_kinds url sel ns imgs options
    (st st1 st3 : state World) p :
  initialize options st = (inr tt, st1) ->
  page st1 = Some p ->
  settle p url options st1 = (inr tt, st3) ->
  (forall w,
     query p sel (world st3) = (inr None, w) ->
     scrape url sel ns imgs options st
     = (inl (ScrapeError url (ElementNotFound sel)), setWorld w st3))
  /\ (forall h w t w',
        query p sel (world st3) = (inr (Some h), w) ->
        elementText h w = (inr t, w') ->
        t = None \/ t = Some [] ->
        scrape url sel ns imgs options st
        = (inl (ScrapeError url EmptyContent), setWorld w' st3))
  /\ (forall h w text w',
        query p sel (world st3) = (inr (Some h), w) ->
        elementText h w = (inr (Some text), w') ->
        text <> [] -> forallb isWhiteSpace text = true ->
        scrape url sel ns imgs options st
        = (inl (ScrapeError url (ParseError text)), setWorld w' st3))
  /\ (forall text,
        ElementNotFound sel <> EmptyContent
        /\ ElementNotFound sel <> ParseError text
        /\ EmptyContent <> ParseError text).
Proof.
  intros Hi Hp Hs. repeat split.
  - intros w Hq.
    exact (scrape_price_failure _ _ _ _ _ _ _ _ _ _ _ Hi Hp Hs
             (extractPrice_not_found _ _ _ _ Hq)).
  - intros h w t w' Hq Ht Hn.
    assert (Hf : truthy t = false) by (destruct Hn as [-> | ->]; reflexivity).
    exact (scrape_price_failure _ _ _ _ _ _ _ _ _ _ _ Hi Hp Hs
             (extractPrice_no_text _ _ _ _ _ _ _ Hq Ht Hf)).
  - intros h w text w' Hq Ht Hne Hws.
    exact (scrape_price_failure _ _ _ _ _ _ _ _ _ _ _ Hi Hp Hs
             (extractPrice_blank _ _ _ _ _ _ _ Hq Ht Hne Hws)).
  - unfold ElementNotFound, EmptyContent. simpl. discriminate.
  - unfold ElementNotFound, ParseError. simpl. discriminate.
  - unfold EmptyContent, ParseError. simpl. discriminate.
Qed.

End PriceStep.

(** ** Concrete runs *)

Module Runs.
Import Fake Shops Scraper.

Lemma price_failure_kinds_witness :
  scrape urlA priceSel None None Types.noOptions start
  = (inl (ScrapeError urlA (ElementNotFound priceSel)),
     snd (scrape urlA priceSel None None Types.noOptions start)).
Proof.
  pose (st1 := snd (initialize Types.noOptions start)).
  pose (st3 := snd (settle 3 urlA Types.noOptions st1)).
  assert (Hi : initialize Types.noOptions start = (inr tt, st1)) by reflexivity.
  assert (Hp : page st1 = Some 3) by reflexivity.
  assert (Hs : settle 3 urlA Types.noOptions st1 = (inr tt, st3)) by reflexivity.
  destruct (price_failure_kinds urlA priceSel None None Types.noOptions
              start st1 st3 3 Hi Hp Hs) as (H & _).
  assert (Hq : query 3 priceSel (world st3) = (inr None, world st3)) by reflexivity.
  exact (H (world st3) Hq).
Defined.

(** C4 as stated fails: a price element whose text is white space only
    is rejected with the parse error, not with EmptyContent. *)
Lemma blank_price_is_parse_error :
  let run := scrape urlBlank priceSel None None Types.noOptions start in
  fst run = inl (ScrapeError urlBlank (ParseError (lit "   ")))
  /\ fst run <> inl (ScrapeError urlBlank EmptyContent).
Proof.
  split; [reflexivity|]. vm_compute. discriminate.
Qed.

Lemma initialize_idempotent_witness :
  let st1 := snd (initialize Types.noOptions start) in
  initialize Types.noOptions st1 = (inr tt, st1)
  /\ log (world st1) = [Launch; NewContext; NewPage].
Proof.
  split; [|reflexivity].
  assert (Hi : initialize Types.noOptions start
               = (inr tt, snd (initialize Types.noOptions start))) by reflexivity.
  exact (proj1 (initialize_idempotent Types.noOptions Types.noOptions start
                  (snd (initialize Types.noOptions start)) Hi)).
Defined.

Lemma close_levels_witness :
  let live := snd (initialize Types.noOptions start) in
  fst (close live) = inr tt
  /\ browser (snd (close live)) = None
  /\ context (snd (close live)) = None
  /\ page (snd (close live)) = None
  /\ log (world (snd (close live)))
     = [Launch; NewContext; NewPage; ClosePage; CloseContext; CloseBrowser].
Proof.
  pose (live := snd (initialize Types.noOptions start)).
  pose (w1 := record ClosePage (world live)).
  pose (w2 := record CloseContext w1).
  pose (w3 := record CloseBrowser w2).
  assert (H1 : closeIf (page live) closePage (world live) = (inr tt, w1))
    by reflexivity.
  assert (H2 : closeIf (context live) closeContext w1 = (inr tt, w2))
    by reflexivity.
  assert (H3 : closeIf (browser live) closeBrowser w2 = (inr tt, w3))
    by reflexivity.
  pose proof (proj1 (close_levels live) w1 w2 w3 H1 H2 H3) as H.
  cbv zeta. change (snd (initialize Types.noOptions start)) with live.
  rewrite H. repeat split.
Defined.

(** C7 as stated fails: when closing the page rejects, the context and
    the engine are not closed, and no reference is emptied. *)
Lemma close_stops_at_failure :
  let live := snd (initialize Types.noOptions
                     (fresh (withFaults [ClosePage] theWeb))) in
  fst (close live) = inl (JsError (lit "Target closed"))
  /\ page (snd (close live)) = Some 3
  /\ context (snd (close live)) = Some 2
  /\ browser (snd (close live)) = Some 1
  /\ log (world (snd (close live))) = [Launch; NewContext; NewPage; ClosePage].
Proof. repeat split. Qed.

(** C3 fails in [scrape]: an image element that carries only [srcset]
    gives no image URL, where [extractImageUrl] on the same element gives
    the first URL of the set; with [src] and [data-src] both set, [scrape]
    gives the [src] value. *)
Theorem scrape_image_without_srcset :
  fst (scrape urlGallery priceSel None (Some imageSel) Types.noOptions start)
  = inr {| Types.price := Decimal false 5 0;
           Types.currency := lit "USD";
           Types.productName := None;
           Types.imageUrl := None;
           Types.rawPrice := lit "$5" |}
  /\ extractImageUrl (Some (asElement responsive)) = Some (lit "a.jpg")
  /\ fst (scrape urlB priceSel None (Some imageSel) Types.noOptions start)
     = inr {| Types.price := Decimal false 1050 (-2);
              Types.currency := lit "USD";
              Types.productName := None;
              Types.imageUrl := Some (lit "main.jpg");
              Types.rawPrice := lit "$10.50" |}.
Proof. repeat split. Qed.

End Runs.

(** ** retry *)

Section RetryLoop.
Context {St T : Type}.
Variable sleep : Z -> St -> St.
Variable fn : M (St := St) T.
Variables maxRetries baseDelay : Z.

Lemma retry_skipped (s : St) :
  (maxRetries <= 0)%Z ->
  retry sleep fn maxRetries baseDelay s = (inl JsUndefined, s).
Proof.
  intros H. unfold retry. replace (Z.to_nat maxRetries) with O by lia.
  reflexivity.
Qed.

(** C9.  With [maxRetries] zero or negative the loop body never runs:
    the operation is not invoked, the state is left as it was, and the
    value thrown is the unassigned [lastError], that is [undefined] and
    not an [Error]. *)
Theorem retry_no_attempts (s : St) :
  (maxRetries <= 0)%Z ->
  retry sleep fn maxRetries baseDelay s = (inl JsUndefined, s)
  /\ forall message, fst (retry sleep fn maxRetries baseDelay s) <> inl (JsError message).
Proof.
  intros H. rewrite (retry_skipped s H).
  split; [reflexivity|]. intros message. discriminate.
Qed.

(** The loop leaves by its own test. *)
Lemma retryLoop_fuel fuel attempt lastError s :
  (maxRetries <= attempt)%Z ->
  retryLoop sleep fn maxRetries baseDelay fuel attempt lastError s
  = throwLast lastError s.
Proof.
  intros H. destruct fuel; [reflexivity|]. cbn [retryLoop].
  destruct (Z.ltb_spec attempt maxRetries); [lia | reflexivity].
Qed.

(** The fuel [retry] gives the loop is enough: more fuel changes
    nothing. *)
Lemma retryLoop_enough_fuel fuel extra :
  forall attempt lastError s,
    (maxRetries - attempt <= Z.of_nat fuel)%Z ->
    retryLoop sleep fn maxRetries baseDelay (fuel + extra) attempt lastError s
    = retryLoop sleep fn maxRetries baseDelay fuel attempt lastError s.
Proof.
  induction fuel as [|fuel IH]; intros attempt lastError s H.
  - rewrite !retryLoop_fuel by lia. reflexivity.
  - cbn [Nat.add retryLoop].
    destruct (attempt <? maxRetries)%Z; [|reflexivity].
    destruct (fn s) as [[e|v] s']; [|reflexivity].
    apply IH. lia.
Qed.

Variable log : St -> list retryEvent.
Hypothesis sleep_logged :
  forall ms s, log (sleep ms s) = log s ++ [Slept ms].
Hypothesis fn_fails :
  forall s, exists e s', fn s = (inl e, s') /\ log s' = log s ++ [Invoked e].

Lemma retryLoop_exhaustion fuel :
  forall attempt lastError s,
    (0 < fuel)%nat ->
    (attempt + Z.of_nat fuel = maxRetries)%Z ->
    exists errors e,
      List.length errors = fuel
      /\ last errors JsUndefined = e
      /\ In e errors
      /\ log (snd (retryLoop sleep fn maxRetries baseDelay fuel attempt lastError s))
         = log s ++ exhausted baseDelay attempt errors
      /\ fst (retryLoop sleep fn maxRetries baseDelay fuel attempt lastError s)
         = inl e.
Proof.
  induction fuel as [|fuel IH]; intros attempt lastError s Hpos Hsum; [lia|].
  cbn [retryLoop].
  destruct (Z.ltb_spec attempt maxRetries) as [_|]; [|lia].
  destruct (fn_fails s) as (e & s' & Hfn & Hlog). rewrite Hfn.
  destruct fuel as [|fuel].
  - destruct (Z.ltb_spec attempt (maxRetries - 1)) as [|_]; [lia|].
    exists [e], e. cbn. rewrite Hlog. auto.
  - destruct (Z.ltb_spec attempt (maxRetries - 1)) as [_|]; [|lia].
    destruct (IH (attempt + 1)%Z (Some e) (sleep (baseDelay * 2 ^ attempt) s'))
      as (errors & e' & Hlen & Hlast & Hin & Htrace & Hres); [lia | lia |].
    exists (e :: errors), e'.
    destruct errors as [|e1 errors]; [discriminate|].
    split; [simpl in *; lia|]. split; [exact Hlast|].
    split; [right; exact Hin|]. split; [|exact Hres].
    rewrite Htrace, sleep_logged, Hlog.
    change (exhausted baseDelay attempt (e :: e1 :: errors))
      with (Invoked e :: Slept (baseDelay * 2 ^ attempt)
              :: exhausted baseDelay (attempt + 1) (e1 :: errors)).
    rewrite <- !app_assoc. reflexivity.
Qed.

(** C5.  For an operation that fails at every invocation: the
    operation is invoked [maxRetries] times (not at all when [maxRetries]
    is below one); after the failure of the attempt [i] (from zero), when
    attempts remain, the loop sleeps [baseDelay * 2 ^ i], and it does not
    sleep after the last attempt; the value thrown at the end is the
    error of the last invocation, and with [maxRetries] at least one
    there is such an invocation.  Nothing depends on what the errors
    are. *)
Theorem retry_exhaustion (s : St) :
  exists errors,
    List.length errors = Z.to_nat maxRetries
    /\ log (snd (retry sleep fn maxRetries baseDelay s))
       = log s ++ exhausted baseDelay 0 errors
    /\ fst (retry sleep fn maxRetries baseDelay s)
       = inl (last errors JsUndefined)
    /\ ((1 <= maxRetries)%Z -> In (last errors JsUndefined) errors).
Proof.
  destruct (Z.le_gt_cases maxRetries 0) as [H|H].
  - exists []. rewrite (retry_skipped s H). cbn. rewrite app_nil_r.
    repeat split; lia.
  - unfold retry.
    destruct (retryLoop_exhaustion (Z.to_nat maxRetries) 0%Z None s)
      as (errors & e & Hlen & Hlast & Hin & Htrace & Hres); [lia | lia |].
    exists errors. rewrite Hlast. auto.
Qed.

End RetryLoop.

Lemma retry_no_attempts_witness :
  retry Flaky.sleep Flaky.fn 0 1000 [] = (inl JsUndefined, []).
Proof.
  refine (proj1 (retry_no_attempts Flaky.sleep Flaky.fn 0%Z 1000%Z [] _)). lia.
Defined.

Lemma flaky_logged :
  forall s, exists e s',
    Flaky.fn s = (inl e, s') /\ s' = s ++ [Invoked e].
Proof. intros s. exists (Flaky.failure s), (s ++ [Invoked (Flaky.failure s)]). auto. Qed.

Lemma retry_exhaustion_witness :
  exists errors,
    List.length errors = 3%nat
    /\ snd (retry Flaky.sleep Flaky.fn defaultMaxRetries defaultBaseDelay [])
       = exhausted 1000 0 errors
    /\ fst (retry Flaky.sleep Flaky.fn defaultMaxRetries defaultBaseDelay [])
       = inl (last errors JsUndefined)
    /\ ((1 <= 3)%Z -> In (last errors JsUndefined) errors).
Proof.
  exact (retry_exhaustion Flaky.sleep Flaky.fn 3%Z 1000%Z (fun l => l)
           (fun ms s => eq_refl) flaky_logged []).
Defined.

(** The default policy on the operation that always fails: three
    invocations, delays of 1000 and 2000, the third error thrown. *)
Example retry_default_run :
  retry Flaky.sleep Flaky.fn defaultMaxRetries defaultBaseDelay []
  = (inl (JsError (lit "attempt 2")),
     [ Invoked (JsError (lit "attempt 0")); Slept 1000;
       Invoked (JsError (lit "attempt 1")); Slept 2000;
       Invoked (JsError (lit "attempt 2")) ]).
Proof. reflexivity. Qed.

(** ** scrapeBatch *)

Section Batch.
Context {World : Type} {driver : Driver World}.
Import Scraper.
Variable options : Types.ScraperOptions.
Variable maxRetries : Z.

Lemma scrapeEntry_outcome (r : request) (st : state World) :
  scrapeEntry r options maxRetries st =
  match scrapeWithRetry (url r) (priceSelector r) (nameSelector r)
          (imageSelector r) options maxRetries st with
  | (inr d, st1) =>
      (inr {| success := true; data := Some d; error := None;
              resultUrl := url r |}, st1)
  | (inl e, st1) =>
      (inr {| success := false; data := None;
              error := Some (errorMessage e); resultUrl := url r |}, st1)
  end.
Proof.
  unfold scrapeEntry, tryCatch, bind, ret.
  destruct (scrapeWithRetry _ _ _ _ _ _ st) as [[e|d] st1]; reflexivity.
Qed.

Lemma batchLoop_run (requests : list request) :
  forall (results : list batchResult) (st : state World),
  exists os st',
    batchLoop requests options maxRetries results st = (inr (results ++ os), st')
    /\ BatchRun options maxRetries requests st os st'.
Proof.
  induction requests as [|r rs IH]; intros results st.
  - exists [], st. cbn. rewrite app_nil_r. split; [reflexivity | constructor].
  - cbn [batchLoop]. unfold bind at 1. rewrite scrapeEntry_outcome.
    destruct (scrapeWithRetry _ _ _ _ _ _ st) as [[e|d] st1] eqn:E.
    + destruct (IH (results ++ [ {| success := false; data := None;
                                    error := Some (errorMessage e);
                                    resultUrl := url r |} ]) st1)
        as (os & st' & Hrun & Hrel).
      eexists (_ :: os), st'. rewrite Hrun, <- app_assoc. split; [reflexivity|].
      exact (BatchRun_failure _ _ _ _ _ _ _ _ _ E Hrel).
    + destruct (IH (results ++ [ {| success := true; data := Some d;
                                    error := None; resultUrl := url r |} ]) st1)
        as (os & st' & Hrun & Hrel).
      eexists (_ :: os), st'. rewrite Hrun, <- app_assoc. split; [reflexivity|].
      exact (BatchRun_success _ _ _ _ _ _ _ _ _ E Hrel).
Qed.

Lemma BatchRun_shape requests (st : state World) os st' :
  BatchRun options maxRetries requests st os st' ->
  List.length os = List.length requests
  /\ map resultUrl os = map url requests
  /\ Forall (fun o => match data o, error o with
                      | Some _, None => success o = true
                      | None, Some _ => success o = false
                      | _, _ => False
                      end) os.
Proof.
  induction 1 as [st|r rs st d st1 os st2 _ _ (IH1 & IH2 & IH3)
                  |r rs st e st1 os st2 _ _ (IH1 & IH2 & IH3)]; cbn.
  - auto.
  - rewrite IH1, IH2. repeat split. constructor; [reflexivity | exact IH3].
  - rewrite IH1, IH2. repeat split. constructor; [reflexivity | exact IH3].
Qed.

End Batch.

(** C6.  [scrapeBatch] resolves, for every sequence of targets and from
    every state, to exactly one entry per target, in the order of the
    targets: the entry of a target is a success with the data when that
    target's retried scrape succeeds and a failure with the message of
    the error it ends with otherwise, and the next target is scraped
    from the state the previous one has left, whatever its outcome.
    For targets A (no price element), B (a price), C (no digits) the
    entries are failure, success, failure. *)
Theorem scrapeBatch_outcomes {World : Type} {driver : Driver World}
    (requests : list Scraper.request) (options : Types.ScraperOptions)
    (maxRetries : Z) (st : Scraper.state World) :
  (exists results st',
     Scraper.scrapeBatch requests options maxRetries st = (inr results, st')
     /\ BatchRun options maxRetries requests st results st'
     /\ List.length results = List.length requests
     /\ map Scraper.resultUrl results = map Scraper.url requests
     /\ Forall (fun o => match Scraper.data o, Scraper.error o with
                         | Some _, None => Scraper.success o = true
                         | None, Some _ => Scraper.success o = false
                         | _, _ => False
                         end) results)
  /\ fst (Scraper.scrapeBatch
            [Shops.target Shops.urlA; Shops.target Shops.urlB;
             Shops.target Shops.urlC]
            Types.noOptions defaultMaxRetries Shops.start)
     = inr [ {| Scraper.success := false; Scraper.data := None;
                Scraper.error :=
                  Some (errorMessage
                          (ScrapeError Shops.urlA (ElementNotFound Shops.priceSel)));
                Scraper.resultUrl := Shops.urlA |};
             {| Scraper.success := true;
                Scraper.data :=
                  Some {| Types.price := Decimal false 1050 (-2);
                          Types.currency := lit "USD";
                          Types.productName := None;
                          Types.imageUrl := Some (lit "main.jpg");
                          Types.rawPrice := lit "$10.50" |};
                Scraper.error := None;
                Scraper.resultUrl := Shops.urlB |};
             {| Scraper.success := false; Scraper.data := None;
                Scraper.error :=
                  Some (errorMessage
                          (ScrapeError Shops.urlC (ParseError (lit "Free"))));
                Scraper.resultUrl := Shops.urlC |} ].
Proof.
  split; [|reflexivity].
  destruct (batchLoop_run options maxRetries requests [] st)
    as (os & st' & Hrun & Hrel).
  exists os, st'. split; [exact Hrun|]. split; [exact Hrel|].
  exact (BatchRun_shape _ _ _ _ _ _ Hrel).
Qed.
(** ** Sanity checks of the model on the documented formats *)

Example parsePrice_dollar :
  parsePrice (lit "$99.99")
  = inr {| price := Decimal false 9999 (-2); currency := lit "USD" |}.
Proof. reflexivity. Qed.

Example parsePrice_euro_thousands :
  parsePrice (EURO :: lit "1,234.50")
  = inr {| price := Decimal false 123450 (-2); currency := lit "EUR" |}.
Proof. reflexivity. Qed.

Example parsePrice_code_suffix :
  parsePrice (lit "99.99 cad")
  = inr {| price := Decimal false 9999 (-2); currency := lit "CAD" |}.
Proof. reflexivity. Qed.

Example parsePrice_free :
  parsePrice (lit "Free!")
  = inl (JsError (lit "Could not parse price from: Free!")).
Proof. reflexivity. Qed.

Example parsePrice_empty :
  parsePrice [] = inl (JsError (lit "Price text is empty")).
Proof. reflexivity. Qed.

(** * Further properties of the utilities *)

(** ** parsePrice *)

(** X1.  The amount [parsePrice] returns, and whether it fails, depend
    only on the digits, points and minus signs of a non-empty input, in
    their order: two inputs that agree on those agree on the amount,
    whatever separators, symbols, codes or spaces they carry. *)
Theorem parsePrice_kept_characters (s t : jsstring) :
  s <> [] -> t <> [] ->
  removeAll notNumeric s = removeAll notNumeric t ->
  match parsePrice s, parsePrice t with
  | inr a, inr b => price a = price b
  | inl _, inl _ => True
  | _, _ => False
  end.
Proof.
  intros Hs Ht E. rewrite !parsePrice_closed, E.
  destruct s; [congruence|]. destruct t; [congruence|]. cbn [ParseFloat.isNil].
  destruct (isNaN (parseFloat (removeAll notNumeric (n0 :: t)))); reflexivity.
Qed.

Lemma parsePrice_kept_characters_witness :
  match parsePrice (lit "$1,234.56"), parsePrice (lit "1234.56 eur") with
  | inr a, inr b => price a = price b
  | inl _, inl _ => True
  | _, _ => False
  end.
Proof.
  apply parsePrice_kept_characters; [discriminate | discriminate | reflexivity].
Defined.

Lemma table_codes_allowed :
  forallb (fun p => existsb (JsString.eqb (code p)) codeAlternatives)
    currencyPatterns = true.
Proof. reflexivity. Qed.

Lemma symbolCurrency_allowed cleaned :
  In (symbolCurrency cleaned) codeAlternatives.
Proof.
  unfold symbolCurrency. rewrite symbolScan_find.
  destruct (find _ currencyPatterns) as [p|] eqn:E; cbn [fst].
  - apply find_some in E as [Hin _].
    pose proof table_codes_allowed as H. rewrite forallb_forall in H.
    specialize (H p Hin). apply existsb_exists in H as (c & Hc & Heq).
    apply eqb_eq in Heq. rewrite Heq. exact Hc.
  - left. reflexivity.
Qed.

(** X2.  The currency of a successful [parsePrice] is always one of the
    ten upper-case codes of the allow-list, whatever the input. *)
Theorem parsePrice_currency_known (s : jsstring) (r : parsed) :
  parsePrice s = inr r -> In (currency r) codeAlternatives.
Proof.
  rewrite parsePrice_closed. destruct (ParseFloat.isNil s); [discriminate|].
  destruct (isNaN _); [discriminate|]. intros [= <-]. cbn [currency].
  rewrite detect_currency. destruct (matchCode (trim s)) as [m|] eqn:E.
  - apply execFrom_split in E. tauto.
  - apply symbolCurrency_allowed.
Qed.

Lemma parsePrice_currency_known_witness :
  In (lit "GBP") codeAlternatives.
Proof.
  exact (parsePrice_currency_known (POUND :: lit "0.99")
           {| price := Decimal false 99 (-2); currency := lit "GBP" |} eq_refl).
Defined.

(** X3.  Without a known symbol and without a code token, a successful
    [parsePrice] reports USD. *)
Theorem parsePrice_default_currency (s : jsstring) (r : parsed) :
  ~ hasSymbol s -> matchCode s = None ->
  parsePrice s = inr r -> currency r = lit "USD".
Proof.
  intros Hsym Hm. rewrite parsePrice_closed.
  destruct (ParseFloat.isNil s); [discriminate|].
  destruct (isNaN _); [discriminate|]. intros [= <-]. cbn [currency].
  rewrite (detect_trim_symbol s Hm). unfold symbolCurrency.
  rewrite symbolScan_find.
  destruct (find _ currencyPatterns) as [p|] eqn:E; [|reflexivity].
  apply find_some in E as [Hin Hp].
  rewrite includes_trim_symbol in Hp by exact Hin.
  destruct Hsym. exists p. auto.
Qed.

Lemma no_symbol_in_digits : ~ hasSymbol (lit "1,234.56").
Proof.
  intros (p & Hin & Hp). simpl in Hin.
  repeat (destruct Hin as [<-|Hin]; [discriminate Hp|]). exact Hin.
Qed.

Lemma parsePrice_default_currency_witness :
  currency {| price := Decimal false 123456 (-2); currency := lit "USD" |}
  = lit "USD".
Proof.
  exact (parsePrice_default_currency (lit "1,234.56") _
           no_symbol_in_digits eq_refl eq_refl).
Defined.

Lemma span_stops f c s : f c = false -> span f (c :: s) = ([], c :: s).
Proof. intros H. simpl. rewrite H. reflexivity. Qed.

Lemma span_nil f : span f [] = ([], []).
Proof. reflexivity. Qed.

Lemma unsignedLiteral_no_digit neg u :
  forallb isNumeric u = true -> existsb isDigit u = false ->
  unsignedLiteral neg u = NaN.
Proof.
  intros Hn Hd. unfold unsignedLiteral. rewrite (numeric_not_Infinity u Hn).
  destruct u as [|c r]; [reflexivity|].
  simpl in Hd. apply orb_false_iff in Hd as [Hc Hr].
  rewrite (span_stops isDigit c r Hc). cbn [ParseFloat.isNil].
  destruct (c =? 46); [|reflexivity].
  destruct r as [|c' r']; [reflexivity|].
  simpl in Hr. apply orb_false_iff in Hr as [Hc' _].
  rewrite (span_stops isDigit c' r' Hc'). reflexivity.
Qed.

Lemma existsb_removeAll f cls s :
  existsb f s = false -> existsb f (removeAll cls s) = false.
Proof.
  induction s as [|c s IH]; simpl; [reflexivity|].
  rewrite orb_false_iff. intros [Hc Hs].
  destruct (cls c); simpl; [auto | rewrite Hc; auto].
Qed.

Lemma parseFloat_no_digit f :
  forallb isNumeric f = true -> existsb isDigit f = false ->
  parseFloat f = NaN.
Proof.
  intros Hn Hd. unfold parseFloat. rewrite (numeric_trimStart f Hn).
  destruct f as [|c r]; [reflexivity|]. cbn [signOf].
  assert (Hr : forallb isNumeric r = true)
    by (simpl in Hn; apply andb_true_iff in Hn; tauto).
  assert (Hdr : existsb isDigit r = false)
    by (simpl in Hd; apply orb_false_iff in Hd; tauto).
  destruct (c =? 45); [apply unsignedLiteral_no_digit; assumption|].
  destruct (c =? 43); [apply unsignedLiteral_no_digit; assumption|].
  apply unsignedLiteral_no_digit; assumption.
Qed.

(** X4.  An input without any digit is rejected: the empty input with
    "Price text is empty", every other one with "Could not parse price
    from: " followed by the input as it was given. *)
Theorem parsePrice_needs_digit (s : jsstring) :
  existsb isDigit s = false ->
  parsePrice s
  = inl (JsError (if ParseFloat.isNil s then lit "Price text is empty"
                  else ParseError s)).
Proof.
  intros Hd. rewrite parsePrice_closed.
  destruct (ParseFloat.isNil s); [reflexivity|].
  rewrite parseFloat_no_digit; [reflexivity | apply removeAll_numeric |].
  apply existsb_removeAll, Hd.
Qed.

Lemma parsePrice_needs_digit_witness :
  parsePrice (lit "Call for price - $")
  = inl (JsError (ParseError (lit "Call for price - $"))).
Proof.
  exact (parsePrice_needs_digit (lit "Call for price - $") eq_refl).
Defined.




(** ** trim *)

Lemma dropWhile_app_stop f a c :
  f c = false -> dropWhile f (a ++ [c]) = dropWhile f a ++ [c].
Proof.
  intros Hc. induction a as [|x a IH]; simpl.
  - rewrite Hc. reflexivity.
  - destruct (f x); [exact IH | reflexivity].
Qed.

Lemma dropWhile_fixed f s :
  match s with [] => True | c :: _ => f c = false end -> dropWhile f s = s.
Proof. destruct s as [|c s]; simpl; [reflexivity|]. intros ->. reflexivity. Qed.

Lemma dropWhile_head f s :
  match dropWhile f s with [] => True | c :: _ => f c = false end.
Proof.
  induction s as [|c s IH]; simpl; [exact I|].
  destruct (f c) eqn:E; [exact IH | exact E].
Qed.

(** The head of a string survives [trimEnd] when it is not white
    space. *)
Lemma trimEnd_head c r :
  isWhiteSpace c = false -> exists r', trimEnd (c :: r) = c :: r'.
Proof.
  intros Hc. unfold trimEnd. simpl rev.
  rewrite (dropWhile_app_stop isWhiteSpace (rev r) c Hc), rev_app_distr.
  simpl. eauto.
Qed.

Lemma trimEnd_fixed s :
  match dropWhile isWhiteSpace (rev s) with
  | [] => True
  | _ :: _ => True
  end ->
  trimEnd (trimEnd s) = trimEnd s.
Proof.
  intros _. unfold trimEnd. rewrite rev_involutive.
  rewrite (dropWhile_fixed isWhiteSpace (dropWhile isWhiteSpace (rev s))).
  - reflexivity.
  - apply dropWhile_head.
Qed.

Lemma trim_head s :
  match trim s with [] => True | c :: _ => isWhiteSpace c = false end.
Proof.
  unfold trim. pose proof (dropWhile_head isWhiteSpace s) as H.
  fold (trimStart s) in H. destruct (trimStart s) as [|c r]; [exact I|].
  destruct (trimEnd_head c r H) as (r' & ->). exact H.
Qed.

Lemma trim_idempotent s : trim (trim s) = trim s.
Proof.
  unfold trim at 1.
  rewrite (dropWhile_fixed isWhiteSpace (trim s) (trim_head s) : trimStart (trim s) = trim s).
  unfold trim. apply trimEnd_fixed. destruct (dropWhile _ _); exact I.
Qed.

Lemma trim_last s :
  match rev (trim s) with [] => True | c :: _ => isWhiteSpace c = false end.
Proof.
  unfold trim, trimEnd. rewrite rev_involutive. apply dropWhile_head.
Qed.

Lemma dropWhile_incl f s c : In c (dropWhile f s) -> In c s.
Proof.
  induction s as [|x s IH]; simpl; [auto|].
  destruct (f x); [auto | simpl; auto].
Qed.

Lemma trim_incl s c : In c (trim s) -> In c s.
Proof.
  unfold trim, trimEnd, trimStart. intros H.
  apply in_rev, dropWhile_incl, in_rev, dropWhile_incl in H. exact H.
Qed.

(** ** split *)

Lemma split_nonempty sep s : split sep s <> [].
Proof.
  destruct s as [|c s]; simpl; [discriminate|].
  destruct (c =? sep); [discriminate|]. destruct (split sep s); discriminate.
Qed.

Lemma split_pieces sep s :
  Forall (fun w => ~ In sep w /\ forall c, In c w -> In c s) (split sep s).
Proof.
  induction s as [|c s IH]; simpl.
  - constructor; [|constructor]. split; [auto | auto].
  - destruct (N.eqb_spec c sep) as [->|Hc].
    + constructor.
      * split; [auto | intros ? []].
      * eapply Forall_impl; [|exact IH]. intros w [H1 H2]. split; [exact H1|].
        intros x Hx. right. auto.
    + destruct (split sep s) as [|w ws]; [constructor; [|constructor]|].
      * split; [intros [H|[]]; congruence | intros x [<-|[]]; left; reflexivity].
      * inversion IH as [|? ? [H1 H2] Hws]; subst. constructor.
        -- split; [intros [H|H]; [congruence | auto]|].
           intros x [<-|Hx]; [left; reflexivity | right; auto].
        -- eapply Forall_impl; [|exact Hws]. intros v [G1 G2]. split; [exact G1|].
           intros x Hx. right. auto.
Qed.

Lemma split_head sep s :
  ~ In sep (hd [] (split sep s)) /\ forall c, In c (hd [] (split sep s)) -> In c s.
Proof.
  pose proof (split_pieces sep s) as H.
  destruct (split sep s) as [|w ws]; [simpl; split; [auto | intros ? []]|].
  inversion H; subst. assumption.
Qed.

(** ** extractImageUrl and extractText *)

Lemma srcsetUrls_first ss :
  exists u, hd_error (srcsetUrls ss) = Some u
            /\ ~ In SPACE u /\ ~ In COMMA u /\ forall c, In c u -> In c ss.
Proof.
  unfold srcsetUrls.
  pose proof (split_head COMMA ss) as [Hc Hin].
  pose proof (split_nonempty COMMA ss) as Hne.
  destruct (split COMMA ss) as [|e es]; [congruence|]. cbn [map hd_error hd] in *.
  eexists. split; [reflexivity|].
  pose proof (split_head SPACE (trim e)) as [Hs Hin'].
  split; [exact Hs|]. split.
  - intros H. apply Hc. apply trim_incl, Hin', H.
  - intros c H. apply Hin, trim_incl, Hin', H.
Qed.

Lemma truthy_some v : truthy v = true -> exists c t, v = Some (c :: t).
Proof. destruct v as [[|c t]|]; try discriminate. eauto. Qed.

(** X6.  [extractImageUrl] never returns the empty string.  When it
    returns a URL, that is the [src] attribute if it is set and not
    empty; otherwise the [data-src] attribute if it is set and not empty;
    otherwise a piece of the [srcset] attribute that holds neither a
    comma nor a space.  Without an element it returns null. *)
Theorem extractImageUrl_fallback (element : option Element) (u : jsstring) :
  extractImageUrl element = Some u ->
  u <> []
  /\ exists e,
       element = Some e
       /\ (getAttribute e (lit "src") = Some u
           \/ (truthy (getAttribute e (lit "src")) = false
               /\ getAttribute e (lit "data-src") = Some u)
           \/ (truthy (getAttribute e (lit "src")) = false
               /\ truthy (getAttribute e (lit "data-src")) = false
               /\ exists ss,
                    getAttribute e (lit "srcset") = Some ss
                    /\ hd_error (srcsetUrls ss) = Some u
                    /\ ~ In SPACE u /\ ~ In COMMA u
                    /\ forall c, In c u -> In c ss)).
Proof.
  unfold extractImageUrl, extractAttribute.
  destruct element as [e|]; [|discriminate].
  destruct (truthy (getAttribute e (lit "src"))) eqn:E1.
  { intros H. destruct (truthy_some _ E1) as (c & t & E). rewrite E in H.
    injection H as <-. split; [discriminate|]. exists e. auto. }
  destruct (truthy (getAttribute e (lit "data-src"))) eqn:E2.
  { intros H. destruct (truthy_some _ E2) as (c & t & E). rewrite E in H.
    injection H as <-. split; [discriminate|]. exists e.
    split; [reflexivity|]. right. left. split; [first [exact E1 | reflexivity] | exact E]. }
  destruct (truthy (getAttribute e (lit "srcset"))) eqn:E3; [|discriminate].
  destruct (truthy_some _ E3) as (c & t & E). rewrite E.
  destruct (srcsetUrls_first (c :: t)) as (v & Hv & Hs & Hc & Hin).
  rewrite Hv. destruct v as [|x v]; [discriminate|]. cbn [truthy].
  intros [= <-]. split; [discriminate|]. exists e. split; [reflexivity|].
  right. right. split; [first [exact E1 | reflexivity]|].
  split; [first [exact E2 | reflexivity]|].
  exists (c :: t). auto.
Qed.

Lemma extractImageUrl_fallback_witness :
  extractImageUrl (Some (Shops.asElement Shops.responsive)) = Some (lit "a.jpg")
  /\ lit "a.jpg" <> []
  /\ exists e,
       Some (Shops.asElement Shops.responsive) = Some e
       /\ (getAttribute e (lit "src") = Some (lit "a.jpg")
           \/ (truthy (getAttribute e (lit "src")) = false
               /\ getAttribute e (lit "data-src") = Some (lit "a.jpg"))
           \/ (truthy (getAttribute e (lit "src")) = false
               /\ truthy (getAttribute e (lit "data-src")) = false
               /\ exists ss,
                    getAttribute e (lit "srcset") = Some ss
                    /\ hd_error (srcsetUrls ss) = Some (lit "a.jpg")
                    /\ ~ In SPACE (lit "a.jpg") /\ ~ In COMMA (lit "a.jpg")
                    /\ forall c, In c (lit "a.jpg") -> In c ss)).
Proof.
  split; [reflexivity|].
  exact (extractImageUrl_fallback
           (Some (Shops.asElement Shops.responsive)) (lit "a.jpg") eq_refl).
Defined.

(** X7.  [extractText] returns the text of the element without white
    space at either end, so that trimming its result again changes
    nothing, and the empty string for a missing element or a missing
    text. *)
Theorem extractText_trimmed (element : option Element) :
  match extractText element with
  | [] => True
  | c :: _ => isWhiteSpace c = false
  end
  /\ match rev (extractText element) with
     | [] => True
     | c :: _ => isWhiteSpace c = false
     end
  /\ trim (extractText element) = extractText element
  /\ extractText None = []
  /\ (forall attributes,
        extractText (Some {| textContent := None; getAttribute := attributes |})
        = []).
Proof.
  unfold extractText. repeat split.
  - destruct element as [e|]; [|exact I].
    destruct (textContent e); [apply trim_head | exact I].
  - destruct element as [e|]; [|exact I].
    destruct (textContent e); [apply trim_last | exact I].
  - destruct element as [e|]; [|reflexivity].
    destruct (textContent e); [apply trim_idempotent | reflexivity].
Qed.

(** ** Patterns and their languages *)

Section RegexFacts.
Import Regex.

Lemma cat_inv a b w :
  Matches (Cat a b) w ->
  exists s t, w = s ++ t /\ Matches a s /\ Matches b t.
Proof. intros H. inversion H; subst. eauto. Qed.

Lemma alt_inv a b w : Matches (Alt a b) w -> Matches a w \/ Matches b w.
Proof. intros H. inversion H; subst; auto. Qed.

Lemma class_inv f w : Matches (Class f) w -> exists c, w = [c] /\ f c = true.
Proof. intros H. inversion H; subst. eauto. Qed.

Lemma eps_inv w : Matches Eps w -> w = [].
Proof. intros H. inversion H. reflexivity. Qed.

Lemma void_inv w : ~ Matches Void w.
Proof. intros H. inversion H. Qed.

Lemma nullable_spec r : nullable r = true <-> Matches r [].
Proof.
  induction r as [| |f|a IHa b IHb|a IHa b IHb|a IHa]; simpl.
  - split; [discriminate | intros H; destruct (void_inv _ H)].
  - split; [constructor | reflexivity].
  - split; [discriminate|]. intros H.
    apply class_inv in H as (c & E & _). discriminate.
  - rewrite andb_true_iff, IHa, IHb. split.
    + intros [Ha Hb]. exact (M_Cat a b [] [] Ha Hb).
    + intros H. apply cat_inv in H as (s & t & E & Hs & Ht).
      symmetry in E. apply app_eq_nil in E as [-> ->]. auto.
  - rewrite orb_true_iff, IHa, IHb. split.
    + intros [H|H]; [apply M_Alt_l | apply M_Alt_r]; exact H.
    + apply alt_inv.
  - split; [constructor | reflexivity].
Qed.

Lemma star_cons a c s :
  Matches (Star a) (c :: s) ->
  exists s1 s2, s = s1 ++ s2 /\ Matches a (c :: s1) /\ Matches (Star a) s2.
Proof.
  intros H. remember (Star a) as r eqn:Er. remember (c :: s) as w eqn:Ew.
  revert s Ew.
  induction H as [| | | | | |a' u t Hu _ Ht IHt]; try discriminate; intros s Ew.
  injection Er as ->. destruct u as [|x u].
  - simpl in Ew. exact (IHt eq_refl s Ew).
  - simpl in Ew. injection Ew as -> <-. exists u, t. auto.
Qed.

Lemma deriv_spec c r : forall s, Matches (deriv c r) s <-> Matches r (c :: s).
Proof.
  induction r as [| |f|a IHa b IHb|a IHa b IHb|a IHa]; intros s; simpl.
  - split; intros H; destruct (void_inv _ H).
  - split; intros H; [destruct (void_inv _ H)|].
    apply eps_inv in H. discriminate.
  - destruct (f c) eqn:E; split; intros H.
    + apply eps_inv in H. subst. constructor. exact E.
    + apply class_inv in H as (x & [= -> ->] & _). constructor.
    + destruct (void_inv _ H).
    + apply class_inv in H as (x & [= -> ->] & Hx). congruence.
  - assert (Left : forall u, Matches (Cat (deriv c a) b) u -> Matches (Cat a b) (c :: u)).
    { intros u H. apply cat_inv in H as (s1 & t1 & -> & H1 & H2).
      apply IHa in H1. exact (M_Cat a b (c :: s1) t1 H1 H2). }
    assert (Right : forall u, Matches (Cat a b) (c :: u) ->
              Matches (Cat (deriv c a) b) u
              \/ (Matches a [] /\ Matches b (c :: u))).
    { intros u H. apply cat_inv in H as (s1 & t1 & E & H1 & H2).
      destruct s1 as [|x s1].
      - simpl in E. subst t1. right. auto.
      - simpl in E. injection E as <- ->. left.
        apply M_Cat; [apply IHa; exact H1 | exact H2]. }
    destruct (nullable a) eqn:Na.
    + split; intros H.
      * apply alt_inv in H as [H|H]; [apply Left; assumption|].
        apply (M_Cat a b [] (c :: s)); [apply nullable_spec, Na | apply IHb; assumption].
      * destruct (Right s H) as [H1|[_ H2]];
          [apply M_Alt_l; exact H1 | apply M_Alt_r, IHb; exact H2].
    + split; intros H; [apply Left; exact H|].
      destruct (Right s H) as [H1|[H1 _]]; [exact H1|].
      apply nullable_spec in H1. congruence.
  - split; intros H.
    + apply alt_inv in H as [H|H]; [apply M_Alt_l, IHa | apply M_Alt_r, IHb]; assumption.
    + apply alt_inv in H as [H|H]; [apply M_Alt_l, IHa | apply M_Alt_r, IHb]; assumption.
  - split; intros H.
    + apply cat_inv in H as (s1 & t1 & -> & H1 & H2).
      apply IHa in H1. exact (M_Star_app a (c :: s1) t1 H1 H2).
    + destruct (star_cons a c s H) as (s1 & s2 & -> & H1 & H2).
      apply M_Cat; [apply IHa; exact H1 | exact H2].
Qed.

Lemma test_spec r s : test r s = true <-> Matches r s.
Proof.
  unfold test. revert r. induction s as [|c s IH]; intros r; simpl.
  - apply nullable_spec.
  - rewrite IH. apply deriv_spec.
Qed.

Lemma matches_accepts r s :
  Matches r s -> forall x, In x s -> accepts r x = true.
Proof.
  induction 1 as [|f c Hc|a b s t _ IHs _ IHt|a b s _ IH|a b s _ IH
                  |a|a s t _ IHs _ IHt]; intros x Hx; cbn [accepts].
  - destruct Hx.
  - destruct Hx as [<-|[]]. exact Hc.
  - apply in_app_or in Hx as [Hx|Hx].
    + rewrite (IHs x Hx). reflexivity.
    + rewrite (IHt x Hx). apply orb_true_r.
  - rewrite (IH x Hx). reflexivity.
  - rewrite (IH x Hx). apply orb_true_r.
  - destruct Hx.
  - apply in_app_or in Hx as [Hx|Hx]; [exact (IHs x Hx) | exact (IHt x Hx)].
Qed.

Lemma lit_inv p s : Matches (Lit p) s -> s = p.
Proof.
  revert s. induction p as [|c p IH]; intros s H; simpl in H.
  - apply eps_inv, H.
  - apply cat_inv in H as (a & b & -> & Ha & Hb).
    apply class_inv in Ha as (x & -> & Hx). apply N.eqb_eq in Hx. subst x.
    rewrite (IH b Hb). reflexivity.
Qed.

Lemma lit_matches p : Matches (Lit p) p.
Proof.
  induction p as [|c p IH]; simpl; [constructor|].
  apply (M_Cat _ _ [c] p); [constructor; apply N.eqb_refl | exact IH].
Qed.

Lemma times_length n a s :
  (forall w, Matches a w -> (1 <= List.length w)%nat) ->
  Matches (Times n a) s -> (n <= List.length s)%nat.
Proof.
  intros Ha. revert s. induction n as [|n IH]; intros s H; simpl in *; [lia|].
  apply cat_inv in H as (u & v & -> & Hu & Hv).
  rewrite length_app. specialize (Ha u Hu). specialize (IH v Hv). lia.
Qed.

Lemma star_class f s : forallb f s = true -> Matches (Star (Class f)) s.
Proof.
  induction s as [|c s IH]; simpl; [constructor|].
  rewrite andb_true_iff. intros [Hc Hs].
  apply (M_Star_app _ [c] s); [constructor; exact Hc | apply IH, Hs].
Qed.

Lemma times_class f s :
  forallb f s = true -> Matches (Times (List.length s) (Class f)) s.
Proof.
  induction s as [|c s IH]; simpl; [constructor|].
  rewrite andb_true_iff. intros [Hc Hs].
  apply (M_Cat _ _ [c] s); [constructor; exact Hc | apply IH, Hs].
Qed.

Lemma upto_class f n s :
  forallb f s = true -> (List.length s <= n)%nat ->
  Matches (UpTo n (Class f)) s.
Proof.
  revert s. induction n as [|n IH]; intros s Hs L.
  - destruct s; [constructor | simpl in L; lia].
  - destruct s as [|c s]; simpl; [apply M_Alt_r; constructor|].
    simpl in Hs, L. apply andb_true_iff in Hs as [Hc Hs].
    apply M_Alt_l. apply (M_Cat _ _ [c] s); [constructor; exact Hc|].
    apply IH; [exact Hs | lia].
Qed.

End RegexFacts.

(** ** isValidUrl *)

Section UrlFacts.
Import Regex Url.

Lemma accepts_body c : accepts body c = true -> bodyChar c = true.
Proof.
  destruct (bodyChar c) eqn:E; [reflexivity|].
  assert (H1 : hostChar c = false) by (unfold bodyChar, hostChar in *; class_arith).
  assert (H2 : tldChar c = false) by (unfold bodyChar, tldChar in *; class_arith).
  assert (H3 : pathChar c = false) by (unfold bodyChar, pathChar in *; class_arith).
  assert (H4 : (46 =? c) = false) by (unfold bodyChar in *; class_arith).
  assert (H5 : (47 =? c) = false) by (unfold bodyChar in *; class_arith).
  unfold body, Plus, Between, Opt.
  change (lit ".") with [46]. change (lit "/") with [47].
  cbn [accepts Lit Times UpTo Nat.sub].
  rewrite H1, H2, H3, H4, H5. cbn. rewrite ?H1, ?H2, ?H3, ?H4, ?H5. cbn.
  intros H. discriminate H.
Qed.

Lemma scheme_inv s :
  Matches scheme s -> s = [] \/ s = lit "http://" \/ s = lit "https://".
Proof.
  unfold scheme, Opt. intros H. apply alt_inv in H as [H|H].
  - apply cat_inv in H as (a & b & -> & Ha & Hb). apply lit_inv in Ha. subst a.
    apply cat_inv in Hb as (x & y & -> & Hx & Hy). apply lit_inv in Hy. subst y.
    apply alt_inv in Hx as [Hx|Hx].
    + apply lit_inv in Hx. subst x. auto.
    + apply eps_inv in Hx. subst x. auto.
  - apply eps_inv in H. auto.
Qed.

Lemma class_length f w : Matches (Class f) w -> (1 <= List.length w)%nat.
Proof. intros H. apply class_inv in H as (c & -> & _). simpl. lia. Qed.

Lemma body_inv s :
  Matches body s ->
  In 46 s /\ (4 <= List.length s)%nat
  /\ match s with c :: _ => hostChar c = true | [] => False end.
Proof.
  unfold body, Plus, Between. intros H.
  apply cat_inv in H as (h & r1 & -> & Hh & H1).
  apply cat_inv in Hh as (h0 & h1 & -> & Hh0 & _).
  apply class_inv in Hh0 as (c & -> & Hc).
  apply cat_inv in H1 as (d & r2 & -> & Hd & H2). apply lit_inv in Hd. subst d.
  apply cat_inv in H2 as (t & r3 & -> & Ht & _).
  apply cat_inv in Ht as (t1 & t2 & -> & Ht1 & _).
  apply (times_length 2 _ _ (class_length tldChar)) in Ht1.
  split; [|split].
  - apply in_or_app. right. left. reflexivity.
  - rewrite ?length_app. simpl. rewrite ?length_app. simpl. rewrite ?length_app. lia.
  - exact Hc.
Qed.

(** X8.  A string [isValidUrl] accepts is, after an optional "http://"
    or "https://", made only of letters, digits, underscores, slashes,
    spaces, points and hyphens; it holds a point, has at least four
    characters and starts with a lower-case letter, a digit, a point or a
    hyphen.  So a URL with a query string, a fragment, a port, or an
    upper-case first letter is rejected. *)
Theorem isValidUrl_shape (url : jsstring) :
  isValidUrl url = true ->
  exists rest,
    (url = rest \/ url = lit "http://" ++ rest \/ url = lit "https://" ++ rest)
    /\ forallb bodyChar rest = true
    /\ In 46 rest
    /\ (4 <= List.length rest)%nat
    /\ match rest with c :: _ => hostChar c = true | [] => False end.
Proof.
  unfold isValidUrl, urlPattern. intros H. apply test_spec in H.
  apply cat_inv in H as (s & rest & -> & Hs & Hb).
  exists rest. split.
  - destruct (scheme_inv s Hs) as [->|[->| ->]]; auto.
  - split.
    + apply forallb_forall. intros x Hx.
      apply accepts_body, (matches_accepts _ _ Hb x Hx).
    + apply body_inv, Hb.
Qed.

Lemma isValidUrl_shape_witness :
  exists rest,
    (lit "https://a.example/item" = rest
     \/ lit "https://a.example/item" = lit "http://" ++ rest
     \/ lit "https://a.example/item" = lit "https://" ++ rest)
    /\ forallb bodyChar rest = true
    /\ In 46 rest
    /\ (4 <= List.length rest)%nat
    /\ match rest with c :: _ => hostChar c = true | [] => False end.
Proof.
  exact (isValidUrl_shape (lit "https://a.example/item") eq_refl).
Defined.

Lemma forallb_firstn {A} (f : A -> bool) n l :
  forallb f l = true -> forallb f (firstn n l) = true.
Proof.
  intros H. rewrite <- (firstn_skipn n l), forallb_app in H.
  apply andb_true_iff in H. tauto.
Qed.

Lemma forallb_skipn {A} (f : A -> bool) n l :
  forallb f l = true -> forallb f (skipn n l) = true.
Proof.
  intros H. rewrite <- (firstn_skipn n l), forallb_app in H.
  apply andb_true_iff in H. tauto.
Qed.

Lemma between_class f n m s :
  forallb f s = true ->
  (n <= List.length s)%nat -> (List.length s <= m)%nat ->
  Matches (Between n m (Class f)) s.
Proof.
  intros Hs Hn Hm. unfold Between. rewrite <- (firstn_skipn n s).
  apply M_Cat.
  - replace n with (List.length (firstn n s)) at 1
      by (rewrite length_firstn; lia).
    apply times_class, forallb_firstn, Hs.
  - apply upto_class; [apply forallb_skipn, Hs|].
    rewrite length_skipn. lia.
Qed.

Lemma body_matches h t p :
  h <> [] -> forallb hostChar h = true ->
  forallb tldChar t = true ->
  (2 <= List.length t)%nat -> (List.length t <= 6)%nat ->
  forallb pathChar p = true ->
  Matches body (h ++ lit "." ++ t ++ p).
Proof.
  intros Hne Hh Ht L2 L6 Hp. unfold body.
  apply M_Cat.
  - destruct h as [|c h]; [congruence|]. simpl in Hh.
    apply andb_true_iff in Hh as [Hc Hh].
    apply (M_Cat _ _ [c] h); [constructor; exact Hc | apply star_class, Hh].
  - apply M_Cat; [apply lit_matches|].
    apply M_Cat; [apply between_class; assumption|].
    rewrite <- (app_nil_r p). apply M_Cat; [|apply M_Alt_r; constructor].
    rewrite <- (app_nil_r p). apply M_Star_app; [apply star_class, Hp | constructor].
Qed.

(** X9.  [isValidUrl] accepts every string made of a non-empty host of
    lower-case letters, digits, points and hyphens, a point, a domain of
    two to six lower-case letters or points, and a path of letters,
    digits, underscores, slashes, spaces, points and hyphens; and the same
    string after "http://" or "https://". *)
Theorem isValidUrl_accepts (h t p : jsstring) :
  h <> [] -> forallb hostChar h = true ->
  forallb tldChar t = true ->
  (2 <= List.length t)%nat -> (List.length t <= 6)%nat ->
  forallb pathChar p = true ->
  isValidUrl (h ++ lit "." ++ t ++ p) = true
  /\ isValidUrl (lit "http://" ++ h ++ lit "." ++ t ++ p) = true
  /\ isValidUrl (lit "https://" ++ h ++ lit "." ++ t ++ p) = true.
Proof.
  intros Hne Hh Ht L2 L6 Hp.
  pose proof (body_matches h t p Hne Hh Ht L2 L6 Hp) as Hb.
  unfold isValidUrl, urlPattern. repeat split; apply test_spec.
  - apply (M_Cat scheme body [] _); [apply M_Alt_r; constructor | exact Hb].
  - apply M_Cat; [|exact Hb]. apply M_Alt_l.
    apply (M_Cat _ _ (lit "http") (lit "://")); [apply lit_matches|].
    apply (M_Cat _ _ [] (lit "://")); [apply M_Alt_r; constructor | apply lit_matches].
  - apply M_Cat; [|exact Hb]. apply M_Alt_l.
    apply (M_Cat _ _ (lit "http") (lit "s://")); [apply lit_matches|].
    apply (M_Cat _ _ (lit "s") (lit "://")); [apply M_Alt_l, lit_matches | apply lit_matches].
Qed.

Lemma isValidUrl_accepts_witness :
  isValidUrl (lit "shop.example" ++ lit "." ++ lit "com" ++ lit "/item/42") = true
  /\ isValidUrl (lit "http://" ++ lit "shop.example" ++ lit "." ++ lit "com"
                 ++ lit "/item/42") = true
  /\ isValidUrl (lit "https://" ++ lit "shop.example" ++ lit "." ++ lit "com"
                 ++ lit "/item/42") = true.
Proof.
  apply isValidUrl_accepts; try reflexivity; [discriminate | simpl; lia | simpl; lia].
Defined.

End UrlFacts.

(** ** sanitizeSelector *)

Section SanitizeFacts.
Import Sanitize.

Lemma removeMatches_keep matchAt c s :
  matchAt (c :: s) = None ->
  removeMatches matchAt 0 (c :: s) = c :: removeMatches matchAt 0 s.
Proof. intros H. cbn [removeMatches]. rewrite H. reflexivity. Qed.

Lemma removeMatches_untouched matchAt x s :
  (forall t n, matchAt t = Some n -> In x t) ->
  ~ In x s -> removeMatches matchAt 0 s = s.
Proof.
  intros Hm. induction s as [|c s IH]; intros Hx; [reflexivity|].
  rewrite removeMatches_keep.
  - rewrite IH; [reflexivity|]. intros H. apply Hx. right. exact H.
  - destruct (matchAt (c :: s)) as [n|] eqn:E; [|reflexivity].
    destruct (Hx (Hm _ _ E)).
Qed.

Lemma matchHandlerAt_equals s n : matchHandlerAt s = Some n -> In 61 s.
Proof.
  unfold matchHandlerAt. destruct s as [|o [|k r]]; try discriminate.
  destruct (_ && _); [|discriminate].
  destruct (span_spec isWordChar r) as (E1 & _ & _).
  destruct (span isWordChar r) as [ws r1]. cbn [fst snd] in E1.
  destruct (ParseFloat.isNil ws); [discriminate|].
  destruct (span_spec isWhiteSpace r1) as (E2 & _ & _).
  destruct (span isWhiteSpace r1) as [sp r2]. cbn [fst snd] in E2.
  destruct r2 as [|c r3]; [discriminate|].
  destruct (N.eqb_spec c 61) as [->|]; [|discriminate].
  intros _. right. right. rewrite E1, E2.
  apply in_or_app. right. apply in_or_app. right. left. reflexivity.
Qed.

Lemma canonicalize_colon b : canonicalize 58 = canonicalize b -> b = 58.
Proof.
  unfold canonicalize, toUpperUnit. change (isLower 58) with false. cbv iota.
  destruct (isLower b) eqn:E; [|congruence].
  intros H. unfold isLower, inRange in E.
  apply andb_true_iff in E as [E1 E2]. apply N.leb_le in E1, E2. lia.
Qed.

Lemma startsWithIgnoreCase_colon p s :
  startsWithIgnoreCase p s = true -> In 58 p -> In 58 s.
Proof.
  revert s. induction p as [|a p IH]; intros s H Hin; [destruct Hin|].
  destruct s as [|b s]; [discriminate|]. cbn [startsWithIgnoreCase] in H.
  apply andb_true_iff in H as [Hab H]. apply N.eqb_eq in Hab.
  destruct Hin as [->|Hin].
  - left. apply canonicalize_colon, Hab.
  - right. exact (IH s H Hin).
Qed.

Lemma matchJavascriptAt_colon s n : matchJavascriptAt s = Some n -> In 58 s.
Proof.
  unfold matchJavascriptAt.
  destruct (startsWithIgnoreCase (lit "javascript:") s) eqn:E; [|discriminate].
  intros _. apply (startsWithIgnoreCase_colon _ _ E). simpl. tauto.
Qed.

(** X10.  A selector that holds no equals sign is left alone by the
    first replacement, and one that holds no colon by the second: a
    selector with neither comes back with only the white space at its
    ends removed. *)
Theorem sanitizeSelector_plain (selector : jsstring) :
  ~ In 61 selector -> ~ In 58 selector ->
  sanitizeSelector selector = trim selector.
Proof.
  intros He Hc. unfold sanitizeSelector.
  rewrite (removeMatches_untouched matchHandlerAt 61 selector
             matchHandlerAt_equals He).
  rewrite (removeMatches_untouched matchJavascriptAt 58 selector
             matchJavascriptAt_colon Hc).
  reflexivity.
Qed.

Lemma sanitizeSelector_plain_witness :
  sanitizeSelector (lit " .product-price > span ") = lit ".product-price > span".
Proof.
  refine (sanitizeSelector_plain (lit " .product-price > span ") _ _);
    simpl; intros H; repeat (destruct H as [H|H]; [discriminate H|]); exact H.
Defined.

Lemma matchHandlerAt_other c s :
  (canonicalize c =? 79) = false -> matchHandlerAt (c :: s) = None.
Proof.
  intros H. unfold matchHandlerAt. destruct s as [|n r]; [reflexivity|].
  rewrite H. reflexivity.
Qed.

Lemma matchJavascriptAt_other c s :
  (74 =? canonicalize c) = false -> matchJavascriptAt (c :: s) = None.
Proof.
  intros H. unfold matchJavascriptAt.
  change (lit "javascript:") with (106 :: lit "avascript:").
  cbn [startsWithIgnoreCase]. change (canonicalize 106) with 74.
  rewrite H. reflexivity.
Qed.

Lemma dropWhile_app_keep f a c b :
  f c = false -> dropWhile f (a ++ c :: b) = dropWhile f a ++ c :: b.
Proof.
  intros Hc. induction a as [|x a IH]; simpl.
  - rewrite Hc. reflexivity.
  - destruct (f x); [exact IH | reflexivity].
Qed.

Lemma trimEnd_after a c b :
  isWhiteSpace c = false -> trimEnd (a ++ c :: b) = a ++ c :: trimEnd b.
Proof.
  intros Hc. unfold trimEnd.
  replace (rev (a ++ c :: b)) with (rev b ++ c :: rev a)
    by (rewrite rev_app_distr; simpl; rewrite <- app_assoc; reflexivity).
  rewrite (dropWhile_app_keep isWhiteSpace (rev b) c (rev a) Hc).
  rewrite rev_app_distr. simpl. rewrite rev_involutive, <- app_assoc.
  reflexivity.
Qed.

(** X11.  The replacements are made in one pass each and are not
    repeated: a "javascript:" split around another "javascript:" is put
    together by the removal of the inner one, so for every continuation
    the result of [sanitizeSelector] on "javajavascript:script:" followed
    by it still starts with "javascript:". *)
Theorem sanitizeSelector_nested (t : jsstring) :
  startsWith (lit "javascript:")
    (sanitizeSelector (lit "javajavascript:script:" ++ t)) = true.
Proof.
  unfold sanitizeSelector.
  change (lit "javajavascript:script:" ++ t)
    with (lit "javajavascript:script" ++ 58 :: t).
  assert (H1 : removeMatches matchHandlerAt 0
                 (lit "javajavascript:script" ++ 58 :: t)
               = lit "javajavascript:script:"
                 ++ removeMatches matchHandlerAt 0 t).
  { cbn [lit app N_of_ascii].
    repeat (rewrite removeMatches_keep
              by (apply matchHandlerAt_other; reflexivity); f_equal);
      reflexivity. }
  rewrite H1. clear H1.
  set (u := removeMatches matchHandlerAt 0 t).
  assert (H2 : removeMatches matchJavascriptAt 0
                 (lit "javajavascript:script:" ++ u)
               = lit "javascript:" ++ removeMatches matchJavascriptAt 0 u).
  { reflexivity. }
  rewrite H2. clear H2. unfold trim.
  rewrite (dropWhile_fixed isWhiteSpace (lit "javascript:" ++ _) eq_refl
           : trimStart (lit "javascript:" ++ _) = _).
  change (lit "javascript:" ++ removeMatches matchJavascriptAt 0 u)
    with (lit "javascript" ++ 58 :: removeMatches matchJavascriptAt 0 u).
  rewrite trimEnd_after by reflexivity. reflexivity.
Qed.

End SanitizeFacts.

(** ** retry: success and delays *)

Lemma backoff_total b i n :
  (0 <= i)%Z ->
  total (backoff b i n) = (b * 2 ^ i * (2 ^ Z.of_nat n - 1))%Z.
Proof.
  revert i. induction n as [|n IH]; intros i Hi.
  - simpl. lia.
  - cbn [backoff total fold_right]. fold (total (backoff b (i + 1) n)).
    rewrite IH by lia. rewrite Nat2Z.inj_succ, !Z.pow_succ_r by lia.
    replace (i + 1)%Z with (Z.succ i) by lia. rewrite Z.pow_succ_r by lia.
    ring.
Qed.

Section RetrySuccess.
Context {St T : Type}.
Variable sleep : Z -> St -> St.
Variable fn : M (St := St) T.
Variables maxRetries baseDelay : Z.

Variable calls : St -> nat.
Variable slept : St -> list Z.
Hypothesis sleep_effect :
  forall ms s, calls (sleep ms s) = calls s /\ slept (sleep ms s) = slept s ++ [ms].
Hypothesis fn_effect :
  forall s, calls (snd (fn s)) = S (calls s) /\ slept (snd (fn s)) = slept s.

Variable k : nat.
Hypothesis fails_before : forall s, (calls s < k)%nat -> exists e, fst (fn s) = inl e.
Hypothesis succeeds_at : forall s, calls s = k -> exists v, fst (fn s) = inr v.

Lemma retryLoop_success fuel :
  forall attempt lastError s,
    attempt = Z.of_nat (calls s) ->
    (attempt + Z.of_nat fuel = maxRetries)%Z ->
    (calls s <= k)%nat -> (Z.of_nat k < maxRetries)%Z ->
    exists v sk,
      calls sk = k
      /\ fn sk = (inr v, snd (retryLoop sleep fn maxRetries baseDelay fuel attempt lastError s))
      /\ fst (retryLoop sleep fn maxRetries baseDelay fuel attempt lastError s) = inr v
      /\ slept (snd (retryLoop sleep fn maxRetries baseDelay fuel attempt lastError s))
         = slept s ++ backoff baseDelay attempt (k - calls s).
Proof.
  induction fuel as [|fuel IH]; intros attempt lastError s Ha Hf Hk Hm; [lia|].
  cbn [retryLoop]. destruct (Z.ltb_spec attempt maxRetries) as [_|]; [|lia].
  pose proof (fn_effect s) as [Hc Hs].
  destruct (Nat.eq_dec (calls s) k) as [E|E].
  - destruct (succeeds_at s E) as (v & Hv).
    destruct (fn s) as [r s'] eqn:Efn. cbn [fst snd] in *. subst r.
    exists v, s. rewrite Efn. cbn [fst snd].
    replace (k - calls s)%nat with O by lia. cbn [backoff].
    rewrite app_nil_r. auto.
  - destruct (fails_before s) as (e & He); [lia|].
    destruct (fn s) as [r s'] eqn:Efn. cbn [fst snd] in *. subst r.
    destruct (Z.ltb_spec attempt (maxRetries - 1)) as [_|]; [|lia].
    pose proof (sleep_effect (baseDelay * 2 ^ attempt) s') as [Hc' Hs'].
    destruct (IH (attempt + 1)%Z (Some e) (sleep (baseDelay * 2 ^ attempt) s'))
      as (v & sk & H1 & H2 & H3 & H4); try lia.
    exists v, sk. split; [exact H1|]. split; [exact H2|]. split; [exact H3|].
    rewrite H4, Hs', Hs, Hc', Hc.
    replace (k - calls s)%nat with (S (k - S (calls s))) by lia.
    cbn [backoff]. rewrite <- app_assoc. reflexivity.
Qed.

(** X12.  When the operation fails at its first [k] invocations and
    succeeds at the next, with [k] below [maxRetries]: [retry] resolves
    to the value of that invocation, in the state it leaves; the
    operation has been invoked [k + 1] times; the delays slept are
    [baseDelay * 2 ^ i] for [i] from 0 to [k - 1], in that order, which
    add up to [baseDelay * (2 ^ k - 1)]; nothing is slept after the
    success. *)
Theorem retry_succeeds_after (s : St) :
  calls s = O ->
  (Z.of_nat k < maxRetries)%Z ->
  exists v sk,
    calls sk = k
    /\ fn sk = (inr v, snd (retry sleep fn maxRetries baseDelay s))
    /\ fst (retry sleep fn maxRetries baseDelay s) = inr v
    /\ calls (snd (retry sleep fn maxRetries baseDelay s)) = S k
    /\ slept (snd (retry sleep fn maxRetries baseDelay s))
       = slept s ++ backoff baseDelay 0 k
    /\ total (backoff baseDelay 0 k) = (baseDelay * (2 ^ Z.of_nat k - 1))%Z.
Proof.
  intros H0 Hk. unfold retry.
  destruct (retryLoop_success (Z.to_nat maxRetries) 0%Z None s)
    as (v & sk & H1 & H2 & H3 & H4); try lia.
  exists v, sk. split; [exact H1|]. split; [exact H2|]. split; [exact H3|].
  split.
  - pose proof (fn_effect sk) as [Hc _]. rewrite H2 in Hc. cbn [snd] in Hc.
    rewrite Hc, H1. reflexivity.
  - split.
    + rewrite H4, H0, Nat.sub_0_r. reflexivity.
    + rewrite backoff_total by lia. rewrite Z.pow_0_r. ring.
Qed.

End RetrySuccess.

Lemma recovering_sleep_effect ms (s : Recovering.state) :
  fst (Recovering.sleep ms s) = fst s
  /\ snd (Recovering.sleep ms s) = snd s ++ [ms].
Proof. destruct s. split; reflexivity. Qed.

Lemma recovering_fn_effect (s : Recovering.state) :
  fst (snd (Recovering.fn s)) = S (fst s)
  /\ snd (snd (Recovering.fn s)) = snd s.
Proof.
  destruct s as [n l]. unfold Recovering.fn.
  destruct (n <? 2)%nat; split; reflexivity.
Qed.

Lemma recovering_fails_before (s : Recovering.state) :
  (fst s < 2)%nat -> exists e, fst (Recovering.fn s) = inl e.
Proof.
  destruct s as [n l]. cbn [fst]. intros H. unfold Recovering.fn.
  apply Nat.ltb_lt in H. rewrite H. exists (JsError (lit "not yet")). reflexivity.
Qed.

Lemma recovering_succeeds_at (s : Recovering.state) :
  fst s = 2%nat -> exists v, fst (Recovering.fn s) = inr v.
Proof. destruct s as [n l]. cbn [fst]. intros ->. exists 2%nat. reflexivity. Qed.

Lemma retry_succeeds_after_witness :
  exists v sk,
    fst sk = 2%nat
    /\ Recovering.fn sk
       = (inr v, snd (retry Recovering.sleep Recovering.fn 3 1000 (O, [])))
    /\ fst (retry Recovering.sleep Recovering.fn 3 1000 (O, [])) = inr v
    /\ fst (snd (retry Recovering.sleep Recovering.fn 3 1000 (O, []))) = 3%nat
    /\ snd (snd (retry Recovering.sleep Recovering.fn 3 1000 (O, [])))
       = [] ++ backoff 1000 0 2
    /\ total (backoff 1000 0 2) = (1000 * (2 ^ Z.of_nat 2 - 1))%Z.
Proof.
  refine (retry_succeeds_after Recovering.sleep Recovering.fn 3%Z 1000%Z
            fst snd recovering_sleep_effect recovering_fn_effect 2%nat
            recovering_fails_before recovering_succeeds_at (O, []) eq_refl _).
  simpl. lia.
Defined.

(** The run of the operation that fails twice, under the default
    policy. *)
Example retry_recovering_run :
  retry Recovering.sleep Recovering.fn defaultMaxRetries defaultBaseDelay (O, [])
  = (inr 2%nat, (3%nat, [1000; 2000]%Z)).
Proof. reflexivity. Qed.

Lemma sleptTotal_app a b :
  sleptTotal (a ++ b) = (sleptTotal a + sleptTotal b)%Z.
Proof.
  induction a as [|[e|ms] a IH]; cbn [app sleptTotal]; lia.
Qed.

Lemma exhausted_total b errors :
  forall i, (0 <= i)%Z -> errors <> [] ->
  sleptTotal (exhausted b i errors)
  = (b * 2 ^ i * (2 ^ (Z.of_nat (List.length errors) - 1) - 1))%Z.
Proof.
  induction errors as [|e errors IH]; intros i Hi Hne; [congruence|].
  destruct errors as [|e1 errors].
  - cbn. lia.
  - change (exhausted b i (e :: e1 :: errors))
      with (Invoked e :: Slept (b * 2 ^ i) :: exhausted b (i + 1) (e1 :: errors)).
    cbn [sleptTotal]. rewrite IH by (lia || discriminate).
    cbn [List.length]. rewrite !Nat2Z.inj_succ.
    replace (Z.succ (Z.succ (Z.of_nat (List.length errors))) - 1)%Z
      with (Z.succ (Z.of_nat (List.length errors))) by lia.
    replace (Z.succ (Z.of_nat (List.length errors)) - 1)%Z
      with (Z.of_nat (List.length errors)) by lia.
    replace (i + 1)%Z with (Z.succ i) by lia.
    rewrite !Z.pow_succ_r by lia. ring.
Qed.

Section RetryDelay.
Context {St T : Type}.
Variable sleep : Z -> St -> St.
Variable fn : M (St := St) T.
Variables maxRetries baseDelay : Z.
Variable log : St -> list retryEvent.
Hypothesis sleep_logged :
  forall ms s, log (sleep ms s) = log s ++ [Slept ms].
Hypothesis fn_fails :
  forall s, exists e s', fn s = (inl e, s') /\ log s' = log s ++ [Invoked e].

(** X13.  When every one of the [maxRetries] attempts fails
    ([maxRetries] at least one), the time [retry] has slept before it
    gives up is [baseDelay * (2 ^ (maxRetries - 1) - 1)]: 3000 ms under
    the default policy. *)
Theorem retry_exhaustion_delay (s : St) :
  (1 <= maxRetries)%Z ->
  sleptTotal (log (snd (retry sleep fn maxRetries baseDelay s)))
  = (sleptTotal (log s) + baseDelay * (2 ^ (maxRetries - 1) - 1))%Z.
Proof.
  intros H. unfold retry.
  destruct (retryLoop_exhaustion sleep fn maxRetries baseDelay log
              sleep_logged fn_fails (Z.to_nat maxRetries) 0%Z None s)
    as (errors & e & Hlen & _ & _ & Htrace & _); [lia | lia |].
  rewrite Htrace, sleptTotal_app, exhausted_total.
  - rewrite Hlen, Z2Nat.id by lia. rewrite Z.pow_0_r. ring.
  - lia.
  - intros ->. simpl in Hlen. lia.
Qed.

End RetryDelay.

Lemma retry_exhaustion_delay_witness :
  sleptTotal (snd (retry Flaky.sleep Flaky.fn 3 1000 [])) = 3000%Z.
Proof.
  refine (retry_exhaustion_delay Flaky.sleep Flaky.fn 3%Z 1000%Z (fun l => l)
            (fun ms s => eq_refl) flaky_logged [] _).
  lia.
Defined.

(** * Further properties of the scraper *)

Section Keeping.
Context {World : Type} {driver : Driver World}.
Import Scraper.

Lemma keeps_ret {A} (a : A) : keeps (World := World) (ret a).
Proof. intros st. reflexivity. Qed.

Lemma keeps_throw {A} e : keeps (World := World) (throw (A := A) e).
Proof. intros st. reflexivity. Qed.

Lemma keeps_call {A} (f : World -> result A * World) : keeps (call f).
Proof. intros st. unfold call. destruct (f (world st)). reflexivity. Qed.

Lemma keeps_sleep ms : keeps (modify (sleep ms)).
Proof. intros st. reflexivity. Qed.

Lemma keeps_liftResult {A} (r : result A) : keeps (World := World) (liftResult r).
Proof. intros st. reflexivity. Qed.

Lemma keeps_bind {A B} (m : M (St := state World) A) (k : A -> M B) :
  keeps m -> (forall a, keeps (k a)) -> keeps (bind m k).
Proof.
  intros Hm Hk st. unfold bind. specialize (Hm st).
  destruct (m st) as [[e|a] st1]; cbn [snd] in *; [exact Hm|].
  rewrite (Hk a st1). exact Hm.
Qed.

Lemma keeps_tryCatch {A} (m : M (St := state World) A) (h : exn -> M A) :
  keeps m -> (forall e, keeps (h e)) -> keeps (tryCatch m h).
Proof.
  intros Hm Hh st. unfold tryCatch. specialize (Hm st).
  destruct (m st) as [[e|a] st1]; cbn [snd] in *; [|exact Hm].
  rewrite (Hh e st1). exact Hm.
Qed.

Lemma keeps_settle p url options : keeps (settle p url options).
Proof.
  unfold settle. apply keeps_bind; [apply keeps_call|]. intros _.
  apply keeps_bind; [|intros _; apply keeps_sleep].
  destruct (truthy _); [|apply keeps_ret].
  destruct (Types.waitForSelector options); [apply keeps_call | apply keeps_ret].
Qed.

Lemma keeps_extractPrice p sel : keeps (extractPrice p sel).
Proof.
  unfold extractPrice. apply keeps_bind; [apply keeps_call|].
  intros [h|]; [|apply keeps_throw].
  apply keeps_bind; [apply keeps_call|].
  intros [[|c t]|]; try apply keeps_throw.
  apply keeps_bind; [apply keeps_liftResult | intros r; apply keeps_ret].
Qed.

Lemma keeps_extractName p sel : keeps (extractName p sel).
Proof.
  unfold extractName. destruct (truthy sel); [|apply keeps_ret].
  destruct sel as [s|]; [|apply keeps_ret].
  apply keeps_bind; [apply keeps_call|]. intros [h|]; [|apply keeps_ret].
  apply keeps_bind; [apply keeps_call | intros t; apply keeps_ret].
Qed.

Lemma keeps_extractImage p sel : keeps (extractImage p sel).
Proof.
  unfold extractImage. destruct (truthy sel); [|apply keeps_ret].
  destruct sel as [s|]; [|apply keeps_ret].
  apply keeps_bind; [apply keeps_call|]. intros [h|]; [|apply keeps_ret].
  apply keeps_bind; [apply keeps_call|]. intros u.
  destruct (truthy u); [apply keeps_ret | apply keeps_call].
Qed.

(** After [initialize], [scrape] does not touch the references. *)
Lemma scrape_fields url sel ns imgs options (st : state World) :
  fields (snd (scrape url sel ns imgs options st))
  = fields (snd (initialize options st)).
Proof.
  unfold scrape. unfold bind at 1.
  destruct (initialize options st) as [[e|[]] st1]; [reflexivity|].
  cbn [snd]. revert st1.
  change (keeps (bind (gets page) (fun pg =>
            match pg with
            | Some p =>
                tryCatch
                  (bind (settle p url options) (fun _ =>
                   bind (extractPrice p sel) (fun pr =>
                   bind (extractName p ns) (fun productName =>
                   bind (extractImage p imgs) (fun imageUrl =>
                   ret {| Types.price := Utils.price (snd pr);
                          Types.currency := Utils.currency (snd pr);
                          Types.productName := productName;
                          Types.imageUrl := imageUrl;
                          Types.rawPrice := trim (fst pr) |})))))
                  (fun error =>
                     throw (JsError (lit "Failed to scrape " ++ url ++ lit ": "
                                     ++ errorMessage error)))
            | None => throw (JsError (lit "Page not initialized"))
            end))).
  apply keeps_bind; [intros s0; reflexivity|].
  intros [p|]; [|apply keeps_throw].
  apply keeps_tryCatch; [|intros e; apply keeps_throw].
  apply keeps_bind; [apply keeps_settle|]. intros _.
  apply keeps_bind; [apply keeps_extractPrice|]. intros pr.
  apply keeps_bind; [apply keeps_extractName|]. intros n.
  apply keeps_bind; [apply keeps_extractImage|]. intros i. apply keeps_ret.
Qed.

End Keeping.

Lemma retryLoop_preserves {St T : Type} (sleep : Z -> St -> St)
    (fn : M (St := St) T) (maxRetries baseDelay : Z) (P : St -> Prop) :
  (forall s, P s -> P (snd (fn s))) ->
  (forall ms s, P s -> P (sleep ms s)) ->
  forall fuel attempt lastError s,
    P s -> P (snd (retryLoop sleep fn maxRetries baseDelay fuel attempt lastError s)).
Proof.
  intros Hfn Hsleep. induction fuel as [|fuel IH]; intros attempt lastError s Hs.
  - exact Hs.
  - cbn [retryLoop]. destruct (attempt <? maxRetries)%Z; [|exact Hs].
    specialize (Hfn s Hs). destruct (fn s) as [[e|v] s']; cbn [snd] in *.
    + apply IH. destruct (attempt <? maxRetries - 1)%Z; [apply Hsleep|]; exact Hfn.
    + exact Hfn.
Qed.

Lemma retry_preserves {St T : Type} (sleep : Z -> St -> St)
    (fn : M (St := St) T) (maxRetries baseDelay : Z) (P : St -> Prop) :
  (forall s, P s -> P (snd (fn s))) ->
  (forall ms s, P s -> P (sleep ms s)) ->
  forall s, P s -> P (snd (retry sleep fn maxRetries baseDelay s)).
Proof. intros Hfn Hsleep s. apply retryLoop_preserves; assumption. Qed.

Section SessionOrder.
Context {World : Type} {driver : Driver World}.
Import Scraper.

Lemma ordered_fields (a b : state World) :
  fields a = fields b -> ordered a -> ordered b.
Proof.
  unfold fields, ordered. intros [= -> -> ->]. auto.
Qed.

Lemma initialize_ordered options (st : state World) :
  ordered st -> ordered (snd (initialize options st)).
Proof.
  intros H. unfold initialize, bind, gets, modify, call.
  destruct (browser st) as [b|] eqn:Hb; [exact H|].
  destruct H as [H1 H2].
  assert (Hc : context st = None).
  { destruct (context st); [|reflexivity]. destruct H2; [discriminate | exact Hb]. }
  assert (Hp : page st = None).
  { destruct (page st); [|reflexivity]. destruct H1; [discriminate | exact Hc]. }
  destruct (launch _ (world st)) as [[e|b] w1]; cbn.
  { unfold ordered. cbn. rewrite Hb, Hc, Hp. split; auto. }
  destruct (newContext b _ w1) as [[e|c] w2]; cbn.
  { unfold ordered. cbn. rewrite Hc, Hp. split; [auto | congruence]. }
  destruct (newPage c w2) as [[e|p] w3]; cbn.
  { unfold ordered. cbn. rewrite Hp. split; [congruence | discriminate]. }
  unfold ordered. cbn. split; discriminate.
Qed.

Lemma close_ordered (st : state World) :
  ordered st -> ordered (snd (close st)).
Proof.
  destruct st as [b c p w]. unfold ordered. cbn [page context browser].
  intros [H1 H2]. unfold close, bind, gets, call, modify, ret.
  destruct p as [p|]; cbn.
  - destruct (closePage p w) as [[e|[]] w1]; cbn; [auto|].
    destruct c as [c|]; cbn.
    + destruct (closeContext c w1) as [[e|[]] w2]; cbn; [split; [congruence | auto]|].
      destruct b as [b|]; cbn.
      * destruct (closeBrowser b w2) as [[e|[]] w3]; cbn; split; congruence.
      * split; congruence.
    + destruct H1; [discriminate | reflexivity].
  - destruct c as [c|]; cbn.
    + destruct (closeContext c w) as [[e|[]] w2]; cbn; [auto|].
      destruct b as [b|]; cbn.
      * destruct (closeBrowser b w2) as [[e|[]] w3]; cbn; split; congruence.
      * split; congruence.
    + destruct b as [b|]; cbn.
      * destruct (closeBrowser b w) as [[e|[]] w3]; cbn; split; congruence.
      * split; congruence.
Qed.

Lemma scrape_ordered url sel ns imgs options (st : state World) :
  ordered st -> ordered (snd (scrape url sel ns imgs options st)).
Proof.
  intros H. apply (ordered_fields (snd (initialize options st))).
  - symmetry. apply scrape_fields.
  - apply initialize_ordered, H.
Qed.

Lemma sleep_fields ms (st : state World) : fields (sleep ms st) = fields st.
Proof. reflexivity. Qed.

Lemma scrapeWithRetry_preserves (P : state World -> Prop) url sel ns imgs options n :
  (forall a b, fields a = fields b -> P a -> P b) ->
  (forall s, P s -> P (snd (scrape url sel ns imgs options s))) ->
  forall st, P st -> P (snd (scrapeWithRetry url sel ns imgs options n st)).
Proof.
  intros Hf Hs st. unfold scrapeWithRetry. apply retry_preserves.
  - exact Hs.
  - intros ms s Hp. apply (Hf s); [symmetry; apply sleep_fields | exact Hp].
Qed.

Lemma scrapeEntry_state r options n (st : state World) :
  snd (scrapeEntry r options n st)
  = snd (scrapeWithRetry (url r) (priceSelector r) (nameSelector r)
           (imageSelector r) options n st).
Proof.
  rewrite scrapeEntry_outcome.
  destruct (scrapeWithRetry _ _ _ _ _ _ st) as [[e|d] st1]; reflexivity.
Qed.

Lemma batchLoop_preserves (P : state World -> Prop) options n :
  (forall r st, P st ->
     P (snd (scrapeWithRetry (url r) (priceSelector r) (nameSelector r)
               (imageSelector r) options n st))) ->
  forall requests results st,
    P st -> P (snd (batchLoop requests options n results st)).
Proof.
  intros Hs. induction requests as [|r rs IH]; intros results st Hp; [exact Hp|].
  cbn [batchLoop]. unfold bind at 1.
  pose proof (scrapeEntry_state r options n st) as E.
  pose proof (scrapeEntry_outcome options n r st) as Ho.
  destruct (scrapeEntry r options n st) as [[e|o] st1]; cbn [snd] in *.
  - destruct (scrapeWithRetry _ _ _ _ _ _ st) as [[?|?] ?]; discriminate.
  - apply IH. rewrite E. apply Hs, Hp.
Qed.

(** X14.  The order of the session is kept by every method: from a
    state where a page is held only with its context and a context only
    with its engine (as in a new [Scraper]), [initialize], [close],
    [scrape], [scrapeWithRetry] and [scrapeBatch] all end in such a
    state, whether they resolve or reject. *)
Theorem session_order_kept (st : state World) url sel ns imgs options n requests :
  ordered st ->
  ordered (snd (initialize options st))
  /\ ordered (snd (close st))
  /\ ordered (snd (scrape url sel ns imgs options st))
  /\ ordered (snd (scrapeWithRetry url sel ns imgs options n st))
  /\ ordered (snd (scrapeBatch requests options n st)).
Proof.
  intros H.
  split; [apply initialize_ordered, H|].
  split; [apply close_ordered, H|].
  split; [apply scrape_ordered, H|].
  split.
  - apply scrapeWithRetry_preserves;
      [exact ordered_fields | intros s; apply scrape_ordered | exact H].
  - unfold scrapeBatch. apply batchLoop_preserves; [|exact H].
    intros r s Hs. apply scrapeWithRetry_preserves;
      [exact ordered_fields | intros s'; apply scrape_ordered | exact Hs].
Qed.

Lemma scrape_live_fields url sel ns imgs options (st : state World) :
  browser st <> None ->
  fields (snd (scrape url sel ns imgs options st)) = fields st.
Proof.
  intros H. rewrite scrape_fields.
  destruct (browser st) as [b|] eqn:Hb; [|congruence].
  rewrite (initialize_live options st b Hb). reflexivity.
Qed.

(** X15.  On a session whose engine is set, [scrape], [scrapeWithRetry]
    and [scrapeBatch] leave the engine, the context and the page as they
    found them, whatever happens on the way: one session serves every
    target of a batch and every retry. *)
Theorem scrape_keeps_session (st : state World) url sel ns imgs options n requests :
  browser st <> None ->
  fields (snd (scrape url sel ns imgs options st)) = fields st
  /\ fields (snd (scrapeWithRetry url sel ns imgs options n st)) = fields st
  /\ fields (snd (scrapeBatch requests options n st)) = fields st.
Proof.
  intros H.
  assert (Live : forall s : state World, fields s = fields st -> browser s <> None).
  { unfold fields. intros s [= -> _ _]. exact H. }
  assert (Step : forall u sl nn ii (s : state World),
            fields s = fields st ->
            fields (snd (scrapeWithRetry u sl nn ii options n s)) = fields st).
  { intros u sl nn ii s Hs.
    apply (scrapeWithRetry_preserves (fun x => fields x = fields st)).
    - intros a b E Ha. rewrite <- E. exact Ha.
    - intros x Hx. rewrite scrape_live_fields; [exact Hx | apply Live, Hx].
    - exact Hs. }
  split; [apply scrape_live_fields, H|].
  split; [apply Step; reflexivity|].
  unfold scrapeBatch.
  apply (batchLoop_preserves (fun x => fields x = fields st)); [|reflexivity].
  intros r s Hs. apply Step, Hs.
Qed.

End SessionOrder.

Lemma retryLoop_constant_failure {St T : Type} (sleep : Z -> St -> St)
    (fn : M (St := St) T) (maxRetries baseDelay : Z) (P : St -> Prop) e :
  (forall s, P s -> fst (fn s) = inl e /\ P (snd (fn s))) ->
  (forall ms s, P s -> P (sleep ms s)) ->
  forall fuel attempt lastError s,
    P s -> (0 < fuel)%nat -> (attempt + Z.of_nat fuel = maxRetries)%Z ->
    fst (retryLoop sleep fn maxRetries baseDelay fuel attempt lastError s) = inl e.
Proof.
  intros Hfn Hsleep. induction fuel as [|fuel IH];
    intros attempt lastError s Hs Hpos Hsum; [lia|].
  cbn [retryLoop]. destruct (Z.ltb_spec attempt maxRetries) as [_|]; [|lia].
  destruct (Hfn s Hs) as [He Hp].
  destruct (fn s) as [r s']. cbn [fst snd] in *. subst r.
  destruct fuel as [|fuel].
  - destruct (Z.ltb_spec attempt (maxRetries - 1)); [lia | reflexivity].
  - apply IH; [|lia|lia].
    destruct (attempt <? maxRetries - 1)%Z; [apply Hsleep|]; exact Hp.
Qed.

Section HalfOpen.
Context {World : Type} {driver : Driver World}.
Import Scraper.

Lemma scrape_without_page url sel ns imgs options (st : state World) b :
  browser st = Some b -> page st = None ->
  scrape url sel ns imgs options st
  = (inl (JsError (lit "Page not initialized")), st).
Proof.
  intros Hb Hp. unfold scrape, bind at 1.
  rewrite (initialize_live options st b Hb).
  unfold bind, gets. rewrite Hp. reflexivity.
Qed.

Lemma initialize_half_open options (st st1 : state World) e :
  ordered st -> browser st = None ->
  initialize options st = (inl e, st1) ->
  browser st1 <> None -> page st1 = None.
Proof.
  intros [H1 H2] Hb.
  assert (Hc : context st = None).
  { destruct (context st); [|reflexivity]. destruct H2; [discriminate | exact Hb]. }
  assert (Hp : page st = None).
  { destruct (page st); [|reflexivity]. destruct H1; [discriminate | exact Hc]. }
  unfold initialize, bind, gets, modify, call. rewrite Hb.
  destruct (launch _ (world st)) as [[e1|b] w1]; cbn.
  { intros [= _ <-]. cbn. congruence. }
  destruct (newContext b _ w1) as [[e1|c] w2]; cbn.
  { intros [= _ <-]. cbn. auto. }
  destruct (newPage c w2) as [[e1|p] w3]; cbn.
  { intros [= _ <-]. cbn. auto. }
  discriminate.
Qed.

(** X16.  When [initialize] rejects after the engine has been launched
    (the context or the page could not be created), the engine stays set
    and the page empty.  From then on [initialize] returns at once
    without creating anything, and every [scrape] rejects with "Page not
    initialized", not wrapped with the URL and without touching the
    page; so does [scrapeWithRetry] after all its attempts. *)
Theorem half_open_session options (st st1 : state World) e :
  ordered st -> browser st = None ->
  initialize options st = (inl e, st1) ->
  browser st1 <> None ->
  page st1 = None
  /\ (forall options', initialize options' st1 = (inr tt, st1))
  /\ (forall url sel ns imgs options',
        scrape url sel ns imgs options' st1
        = (inl (JsError (lit "Page not initialized")), st1))
  /\ (forall url sel ns imgs options' n,
        (1 <= n)%Z ->
        fst (scrapeWithRetry url sel ns imgs options' n st1)
        = inl (JsError (lit "Page not initialized"))).
Proof.
  intros Ho Hb Hi Hb1.
  pose proof (initialize_half_open _ _ _ _ Ho Hb Hi Hb1) as Hp.
  destruct (browser st1) as [b|] eqn:Eb; [|congruence].
  split; [exact Hp|]. split; [|split].
  - intros o. exact (initialize_live o st1 b Eb).
  - intros. exact (scrape_without_page _ _ _ _ _ st1 b Eb Hp).
  - intros url sel ns imgs o n Hn. unfold scrapeWithRetry, retry.
    apply (retryLoop_constant_failure sleep _ n 1000%Z
             (fun s => browser s = Some b /\ page s = None)).
    + intros s [Hsb Hsp].
      rewrite (scrape_without_page _ _ _ _ _ s b Hsb Hsp). auto.
    + intros ms s Hs. exact Hs.
    + auto.
    + lia.
    + lia.
Qed.


End HalfOpen.

Lemma parsePrice_trim s r : parsePrice s = inr r -> parsePrice (trim s) = inr r.
Proof.
  rewrite !parsePrice_closed.
  rewrite (removeAll_trim notNumeric s whiteSpace_notNumeric), trim_idempotent.
  destruct (ParseFloat.isNil s) eqn:Es; [discriminate|].
  destruct (isNaN (parseFloat (removeAll notNumeric s))) eqn:En; [discriminate|].
  intros H. destruct (trim s) as [|c t] eqn:Et; [|exact H].
  exfalso.
  pose proof (removeAll_trim notNumeric s whiteSpace_notNumeric) as Hk.
  rewrite Et in Hk. simpl in Hk. rewrite <- Hk in En. discriminate.
Qed.

Section ScrapeResult.
Context {World : Type} {driver : Driver World}.
Import Scraper.

Lemma extractPrice_success p sel (st st' : state World) pr :
  extractPrice p sel st = (inr pr, st') ->
  parsePrice (fst pr) = inr (snd pr).
Proof.
  unfold extractPrice, bind, call, liftResult, ret, throw.
  destruct (query p sel (world st)) as [[e|[h|]] w]; try discriminate.
  cbn [world setWorld].
  destruct (elementText h w) as [[e|[[|c t]|]] w']; try discriminate.
  destruct (parsePrice (c :: t)) as [e|r] eqn:E; [discriminate|].
  intros [= <- _]. exact E.
Qed.

Lemma scrape_success url sel ns imgs options (st st' : state World) d :
  scrape url sel ns imgs options st = (inr d, st') ->
  exists text r,
    parsePrice text = inr r
    /\ Types.price d = price r
    /\ Types.currency d = currency r
    /\ Types.rawPrice d = trim text.
Proof.
  unfold scrape, bind at 1.
  destruct (initialize options st) as [[e|[]] st1]; [discriminate|].
  unfold bind at 1, gets. destruct (page st1) as [p|]; [|discriminate].
  unfold tryCatch, bind at 1.
  destruct (settle p url options st1) as [[e|[]] s2]; [discriminate|].
  unfold bind at 1.
  destruct (extractPrice p sel s2) as [[e|pr] s3] eqn:Ep; [discriminate|].
  unfold bind at 1.
  destruct (extractName p ns s3) as [[e|nm] s4]; [discriminate|].
  unfold bind at 1.
  destruct (extractImage p imgs s4) as [[e|im] s5]; [discriminate|].
  unfold ret. intros [= <- _]. cbn.
  exists (fst pr), (snd pr). split; [|auto].
  exact (extractPrice_success _ _ _ _ _ Ep).
Qed.

(** X18.  What a successful [scrape] reports is consistent: parsing
    the reported [rawPrice] again gives the reported price and currency;
    [rawPrice] has no white space at its ends and is not empty; and the
    currency is one of the ten codes of the allow-list. *)
Theorem scrape_round_trip url sel ns imgs options (st st' : state World) d :
  scrape url sel ns imgs options st = (inr d, st') ->
  parsePrice (Types.rawPrice d)
  = inr {| price := Types.price d; currency := Types.currency d |}
  /\ trim (Types.rawPrice d) = Types.rawPrice d
  /\ Types.rawPrice d <> []
  /\ In (Types.currency d) codeAlternatives.
Proof.
  intros H. apply scrape_success in H as (text & r & Hp & E1 & E2 & E3).
  rewrite E1, E2, E3.
  pose proof (parsePrice_trim text r Hp) as Ht.
  split; [destruct r; exact Ht|]. split; [apply trim_idempotent|]. split.
  - intros E. rewrite E in Ht. discriminate.
  - rewrite parsePrice_closed in Hp.
    destruct (ParseFloat.isNil text); [discriminate|].
    destruct (isNaN _); [discriminate|]. injection Hp as <-. cbn [currency].
    rewrite detect_currency. destruct (matchCode (trim text)) as [m|] eqn:E.
    + apply execFrom_split in E. tauto.
    + apply symbolCurrency_allowed.
Qed.

Variable options : Types.ScraperOptions.
Variable maxRetries : Z.

Lemma bind_assoc {A B C} (m : M (St := state World) A) (k : A -> M B)
    (h : B -> M C) st :
  bind (bind m k) h st = bind m (fun a => bind (k a) h) st.
Proof. unfold bind. destruct (m st) as [[e|a] s1]; reflexivity. Qed.

Lemma bind_ext {A B} (m : M (St := state World) A) (k k' : A -> M B) st :
  (forall a s, k a s = k' a s) -> bind m k st = bind m k' st.
Proof. intros H. unfold bind. destruct (m st) as [[e|a] s1]; [reflexivity | apply H]. Qed.

Lemma batchLoop_app (a b : list request) :
  forall results (st : state World),
    batchLoop (a ++ b) options maxRetries results st
    = bind (batchLoop a options maxRetries results)
        (fun res => batchLoop b options maxRetries res) st.
Proof.
  induction a as [|r a IH]; intros results st; [reflexivity|].
  cbn [app batchLoop]. rewrite bind_assoc. apply bind_ext.
  intros o s. apply IH.
Qed.

Lemma batchLoop_results (requests : list request) :
  forall results (st : state World),
    batchLoop requests options maxRetries results st
    = (let (r, st') := batchLoop requests options maxRetries [] st in
       (match r with
        | inr l => inr (results ++ l)
        | inl e => inl e
        end, st')).
Proof.
  induction requests as [|r rs IH]; intros results st.
  - cbn. rewrite app_nil_r. reflexivity.
  - cbn [batchLoop]. unfold bind.
    destruct (scrapeEntry r options maxRetries st) as [[e|o] st1]; [reflexivity|].
    rewrite (IH (results ++ [o])), (IH ([] ++ [o])).
    destruct (batchLoop rs options maxRetries [] st1) as [[e|l] st2]; [reflexivity|].
    rewrite <- app_assoc. reflexivity.
Qed.

(** X19.  A batch over two lists of targets joined is the batch over
    the first followed, from the state it leaves, by the batch over the
    second, with the entries of the first before those of the second. *)
Theorem scrapeBatch_app (a b : list request) (st : state World) :
  scrapeBatch (a ++ b) options maxRetries st
  = match scrapeBatch a options maxRetries st with
    | (inr ra, st1) =>
        match scrapeBatch b options maxRetries st1 with
        | (inr rb, st2) => (inr (ra ++ rb), st2)
        | (inl e, st2) => (inl e, st2)
        end
    | (inl e, st1) => (inl e, st1)
    end.
Proof.
  unfold scrapeBatch. rewrite batchLoop_app. unfold bind.
  destruct (batchLoop a options maxRetries [] st) as [[e|ra] st1]; [reflexivity|].
  rewrite (batchLoop_results b ra).
  destruct (batchLoop b options maxRetries [] st1) as [[e|rb] st2]; reflexivity.
Qed.

(** The entry of a target that was never attempted. *)
Lemma batchLoop_no_attempts (requests : list request) :
  (maxRetries <= 0)%Z ->
  forall results (st : state World),
    batchLoop requests options maxRetries results st
    = (inr (results
            ++ map (fun r => {| success := false; data := None;
                                error := Some (lit "undefined");
                                resultUrl := url r |}) requests), st).
Proof.
  intros Hn. induction requests as [|r rs IH]; intros results st.
  - cbn. rewrite app_nil_r. reflexivity.
  - cbn [batchLoop map]. unfold bind. rewrite scrapeEntry_outcome.
    unfold scrapeWithRetry. rewrite retry_skipped by exact Hn.
    rewrite IH, <- app_assoc. reflexivity.
Qed.

(** X20.  With [maxRetries] zero or negative, [scrapeBatch] makes no
    attempt at all: it resolves, in the state it started from, to one
    failure per target whose error is the text "undefined". *)
Theorem scrapeBatch_no_attempts (requests : list request) (st : state World) :
  (maxRetries <= 0)%Z ->
  scrapeBatch requests options maxRetries st
  = (inr (map (fun r => {| success := false; data := None;
                           error := Some (lit "undefined");
                           resultUrl := url r |}) requests), st).
Proof.
  intros Hn. unfold scrapeBatch.
  rewrite (batchLoop_no_attempts requests Hn []). reflexivity.
Qed.

End ScrapeResult.

(** * The singleton and the request handlers *)

Section SingletonFacts.
Context {World : Type} {driver : Driver World}.
Import Singleton.

Lemma getScraper_instance (p p1 : process World) (r : result unit) :
  getScraper p = (r, p1) -> exists st, p1 = Instance st.
Proof.
  unfold getScraper. destruct p as [w|st].
  - destruct (Scraper.initialize Types.noOptions (Scraper.fresh w)).
    intros [= _ <-]. eauto.
  - intros [= _ <-]. eauto.
Qed.

(** X21.  Whatever [getScraper] does the first time, resolve or reject,
    the process holds an instance afterwards, and every later
    [getScraper] resolves at once without a runtime call: a failure to
    start the browser is reported by [getScraper] only once.  When the
    first call resolves from an empty process, the instance has its
    engine, context and page. *)
Theorem getScraper_once (p p1 : process World) (r : result unit) :
  getScraper p = (r, p1) ->
  (exists st, p1 = Instance st)
  /\ getScraper p1 = (inr tt, p1)
  /\ (forall w, p = NoInstance w -> r = inr tt ->
      exists st b c pg,
        p1 = Instance st /\ Scraper.browser st = Some b
        /\ Scraper.context st = Some c /\ Scraper.page st = Some pg).
Proof.
  unfold getScraper. destruct p as [w|st].
  - destruct (Scraper.initialize Types.noOptions (Scraper.fresh w))
      as [r0 st1] eqn:E.
    intros [= <- <-]. split; [eauto|]. split; [reflexivity|].
    intros w' _ ->.
    destruct (initialize_sets _ _ _ E eq_refl) as (b & c & pg & H).
    exists st1, b, c, pg. tauto.
  - intros [= <- <-]. split; [eauto|]. split; [reflexivity|].
    intros w [=].
Qed.


End SingletonFacts.

Section ServerFacts.
Context {World : Type} {driver : Driver World}.
Variable tick : World -> jsstring * World.
Import Singleton Server.

Lemma skipn_nth {A} (l : list A) i c :
  nth_error l i = Some c -> skipn i l = c :: skipn (S i) l.
Proof.
  revert i. induction l as [|x l IH]; intros [|i] H; try discriminate.
  - injection H as ->. reflexivity.
  - simpl in H. exact (IH i H).
Qed.

Lemma stamp_resolves d (p : process World) :
  exists s p', stamp tick d p = (inr s, p').
Proof.
  unfold stamp, bind, newDate, ret. destruct p as [w|st].
  - destruct (tick w). eauto.
  - destruct (tick (Scraper.world st)). eauto.
Qed.

Lemma label_resolves (competitors : list Competitor) results :
  forall index (p : process World),
    (index + List.length results = List.length competitors)%nat ->
    exists l p',
      label tick competitors index results p = (inr l, p')
      /\ map resultId l = map id (skipn index competitors)
      /\ map Server.success l = map Scraper.success results
      /\ map Server.error l = map Scraper.error results.
Proof.
  induction results as [|r results IH]; intros index p Hlen.
  - exists [], p. cbn. rewrite skipn_all2 by (simpl in Hlen; lia). auto.
  - cbn [label]. simpl in Hlen.
    destruct (nth_error competitors index) as [c|] eqn:Ec.
    2:{ apply nth_error_None in Ec. lia. }
    unfold bind at 1.
    assert (Hd : exists d p1,
               (match Scraper.data r with
                | Some d => bind (stamp tick d) (fun s => ret (Some s))
                | None => ret None
                end) p = (inr d, p1)).
    { destruct (Scraper.data r) as [d|]; [|unfold ret; eauto].
      destruct (stamp_resolves d p) as (s & p1 & E).
      unfold bind. rewrite E. unfold ret. eauto. }
    destruct Hd as (d & p1 & ->).
    destruct (IH (S index) p1) as (l & p2 & E & H1 & H2 & H3); [lia|].
    unfold bind. rewrite E. unfold ret. eexists _, p2.
    split; [reflexivity|]. cbn [map resultId Server.success Server.error].
    rewrite H1, H2, H3.
    split; [|auto].
    rewrite (skipn_nth _ _ _ Ec). reflexivity.
Qed.

Lemma scrapeBatch_length requests options n (st : Scraper.state World) :
  exists results st',
    Scraper.scrapeBatch requests options n st = (inr results, st')
    /\ List.length results = List.length requests.
Proof.
  destruct (batchLoop_run options n requests [] st) as (os & st' & Hrun & Hrel).
  exists os, st'. split; [exact Hrun|].
  exact (proj1 (BatchRun_shape _ _ _ _ _ _ Hrel)).
Qed.

(** X23.  Once [getScraper] has resolved, the batch handler always
    answers 200, with one result per competitor of the request, in the
    order of the request, each under the [id] of its competitor; reading
    the [id] never fails.  When [getScraper] rejects it answers 500. *)
Theorem batchHandler_ids (competitors : list Competitor) (p : process World) :
  match fst (getScraper p) with
  | inr _ =>
      exists results,
        fst (batchHandler tick competitors p) = Ok200 results
        /\ map resultId results = map id competitors
  | inl _ =>
      exists message, fst (batchHandler tick competitors p) = Error500 message
  end.
Proof.
  destruct (getScraper p) as [[e|[]] p1] eqn:Eg; cbn [fst];
    unfold batchHandler, answer; unfold bind at 1; rewrite Eg.
  - destruct e; eexists; reflexivity.
  - destruct (getScraper_instance p p1 (inr tt) Eg) as (st & ->).
    unfold bind at 1, onInstance.
    destruct (scrapeBatch_length (map asRequest competitors)
                (batchOptions competitors) defaultMaxRetries st)
      as (results & st' & -> & Hlen).
    rewrite length_map in Hlen.
    destruct (label_resolves competitors results 0 (Instance st') Hlen)
      as (l & p2 & -> & Hids & _).
    exists l. auto.
Qed.

Lemma bind_same {St A B} (m : M (St := St) A) (k k' : A -> M B) s :
  (forall a s', k a s' = k' a s') -> bind m k s = bind m k' s.
Proof.
  intros H. unfold bind. destruct (m s) as [[e|a] s1]; [reflexivity | apply H].
Qed.

Lemma label_by_id (cs cs' : list Competitor) :
  map id cs = map id cs' ->
  forall results index (p : process World),
    label tick cs index results p = label tick cs' index results p.
Proof.
  intros Hid. induction results as [|r results IH]; intros index p; [reflexivity|].
  cbn [label].
  assert (E : option_map id (nth_error cs index)
              = option_map id (nth_error cs' index)).
  { rewrite <- !nth_error_map, Hid. reflexivity. }
  destruct (nth_error cs index) as [c|], (nth_error cs' index) as [c'|];
    try discriminate; [|reflexivity].
  injection E as E. rewrite E. apply bind_same. intros d p1.
  unfold bind. rewrite IH. reflexivity.
Qed.

(** X24.  The batch handler scrapes every competitor with the timeout
    and the [waitForSelector] of the first competitor of the request,
    and never reads a [currency]: two requests with the same ids, URLs
    and selectors, whose first competitors agree on timeout and
    [waitForSelector], get the same answer and leave the same state,
    whatever the other competitors ask for. *)
Theorem batchHandler_first_options (cs cs' : list Competitor) (p : process World) :
  map id cs = map id cs' ->
  map asRequest cs = map asRequest cs' ->
  match cs, cs' with
  | c :: _, c' :: _ =>
      timeout (request c) = timeout (request c')
      /\ waitForSelector (request c) = waitForSelector (request c')
  | [], [] => True
  | _, _ => False
  end ->
  batchHandler tick cs p = batchHandler tick cs' p.
Proof.
  intros Hid Hreq Hhead. unfold batchHandler.
  assert (Ho : batchOptions cs = batchOptions cs').
  { unfold batchOptions. destruct cs as [|c cs0], cs' as [|c' cs0'];
      try contradiction; [reflexivity|].
    destruct Hhead as [-> ->]. reflexivity. }
  rewrite Hreq, Ho. unfold answer, bind.
  destruct (getScraper p) as [[e|[]] p1]; [reflexivity|].
  destruct (onInstance _ p1) as [[e|results] p2]; [reflexivity|].
  rewrite (label_by_id cs cs' Hid). reflexivity.
Qed.

End ServerFacts.

(** ** More concrete runs *)

Module MoreRuns.
Import Fake Shops Scraper Sessions.

Lemma session_order_kept_witness :
  ordered start
  /\ ordered (snd (initialize Types.noOptions start))
  /\ ordered (snd (close start))
  /\ ordered (snd (scrape urlB priceSel None None Types.noOptions start))
  /\ ordered (snd (scrapeWithRetry urlB priceSel None None Types.noOptions 3 start))
  /\ ordered (snd (scrapeBatch [target urlA; target urlB] Types.noOptions 3 start)).
Proof.
  assert (H : ordered start) by (split; intros E; exact E).
  split; [exact H|].
  exact (session_order_kept start urlB priceSel None None Types.noOptions 3
           [target urlA; target urlB] H).
Defined.

Lemma scrape_keeps_session_witness :
  let live := snd (initialize Types.noOptions start) in
  fields (snd (scrape urlA priceSel None None Types.noOptions live)) = fields live
  /\ fields (snd (scrapeWithRetry urlA priceSel None None Types.noOptions 3 live))
     = fields live
  /\ fields (snd (scrapeBatch [target urlA; target urlB] Types.noOptions 3 live))
     = fields live.
Proof.
  assert (H : browser (snd (initialize Types.noOptions start)) <> None)
    by discriminate.
  exact (scrape_keeps_session (snd (initialize Types.noOptions start))
           urlA priceSel None None Types.noOptions 3
           [target urlA; target urlB] H).
Defined.

Lemma half_open_session_witness :
  let st1 := snd (initialize Types.noOptions pageless) in
  fst (initialize Types.noOptions pageless) = inl (JsError (lit "Target closed"))
  /\ browser st1 = Some 1
  /\ page st1 = None
  /\ scrape urlB priceSel None None Types.noOptions st1
     = (inl (JsError (lit "Page not initialized")), st1)
  /\ fst (scrapeWithRetry urlB priceSel None None Types.noOptions 3 st1)
     = inl (JsError (lit "Page not initialized")).
Proof.
  pose (st1 := snd (initialize Types.noOptions pageless)).
  assert (Ho : ordered pageless) by (split; intros E; exact E).
  assert (Hb : browser pageless = None) by reflexivity.
  assert (Hi : initialize Types.noOptions pageless
               = (inl (JsError (lit "Target closed")), st1)) by reflexivity.
  assert (Hb1 : browser st1 <> None) by discriminate.
  destruct (half_open_session Types.noOptions pageless st1 _ Ho Hb Hi Hb1)
    as (Hp & _ & Hs & Hr).
  split; [reflexivity|]. split; [reflexivity|]. split; [exact Hp|].
  split; [exact (Hs urlB priceSel None None Types.noOptions)|].
  apply (Hr urlB priceSel None None Types.noOptions 3%Z). lia.
Defined.


Lemma scrape_round_trip_witness :
  let d := {| Types.price := Decimal false 1050 (-2);
              Types.currency := lit "USD";
              Types.productName := None;
              Types.imageUrl := Some (lit "main.jpg");
              Types.rawPrice := lit "$10.50" |} in
  fst (scrape urlB priceSel None (Some imageSel) Types.noOptions start) = inr d
  /\ parsePrice (Types.rawPrice d)
     = inr {| price := Types.price d; currency := Types.currency d |}
  /\ trim (Types.rawPrice d) = Types.rawPrice d
  /\ Types.rawPrice d <> []
  /\ In (Types.currency d) codeAlternatives.
Proof.
  cbv zeta. split; [reflexivity|].
  refine (scrape_round_trip urlB priceSel None (Some imageSel) Types.noOptions
            start (snd (scrape urlB priceSel None (Some imageSel)
                          Types.noOptions start)) _ _).
  reflexivity.
Defined.

Lemma scrapeBatch_no_attempts_witness :
  scrapeBatch [target urlA; target urlB] Types.noOptions 0 start
  = (inr [ {| success := false; data := None; error := Some (lit "undefined");
              resultUrl := urlA |};
           {| success := false; data := None; error := Some (lit "undefined");
              resultUrl := urlB |} ], start).
Proof.
  refine (scrapeBatch_no_attempts Types.noOptions 0
            [target urlA; target urlB] start _).
  lia.
Defined.

Import Singleton.

Lemma getScraper_once_witness :
  let p1 := snd (getScraper Requests.idle) in
  (exists st, p1 = Instance st)
  /\ getScraper p1 = (inr tt, p1)
  /\ exists st b c pg,
       p1 = Instance st /\ Scraper.browser st = Some b
       /\ Scraper.context st = Some c /\ Scraper.page st = Some pg.
Proof.
  pose (p1 := snd (getScraper Requests.idle)).
  assert (H : getScraper Requests.idle = (inr tt, p1)) by reflexivity.
  destruct (getScraper_once Requests.idle p1 (inr tt) H) as (H1 & H2 & H3).
  split; [exact H1|]. split; [exact H2|].
  exact (H3 theWeb eq_refl eq_refl).
Defined.


Import Server.

Lemma batchHandler_first_options_witness :
  batchHandler Requests.noon Requests.batch Requests.idle
  = batchHandler Requests.noon Requests.batch' Requests.idle.
Proof.
  refine (batchHandler_first_options Requests.noon Requests.batch Requests.batch'
            Requests.idle _ _ _).
  - reflexivity.
  - reflexivity.
  - split; reflexivity.
Defined.

End MoreRuns.
